(** * Cartesian vertex-cut partitioner of Galois (DistGraphCartesianCut)

    A shallow embedding of
    [libdist/include/galois/graphs/DistributedGraph_CartesianCut.h]:
    the host grid, the block map queries, the sync-policy predicates, the
    two passes over the edge source (inspection/layout and edge loading),
    the replica tables and the local-graph persistence hooks.

    Conventions.
    - C++ [unsigned]/[uint32_t] and [uint64_t] values are integers in [Z];
      arithmetic whose result is stored in such a variable is wrapped with
      [u32]/[u64] where the source computes a new count or size.
    - [assert] is the C macro: it is checked unless the build defines
      [NDEBUG]; a build is described by the flag [ndebug].  The assertions
      [gid < numGlobalNodes] that open the block-map queries are read as
      preconditions of these queries and leave no trace in their value.
    - A run ends in a value ([Ok]) or in one of the ways a C++ run of this
      code can stop ([Abort]): a failed assertion, an exception thrown by
      [std::unordered_map::at], an undefined operation, or a receive loop
      that waits for a buffer nobody sends. *)

From stdpp Require Import base numbers list option gmap.
From Stdlib Require Import ZArith Lia.

#[local] Open Scope Z_scope.

(** ** Outcomes of a run *)

Inductive Failure :=
  | AssertionFailed   (* assert(...) in a build without NDEBUG *)
  | OutOfRange        (* std::out_of_range from unordered_map::at *)
  | Undefined         (* division by zero, vector index past the end *)
  | Blocked.          (* waiting for a buffer that never arrives *)

Inductive Result (A : Type) :=
  | Ok (a : A)
  | Abort (f : Failure).
Arguments Ok {A} a.
Arguments Abort {A} f.

#[global] Instance Result_ret : MRet Result := fun _ a => Ok a.
#[global] Instance Result_bind : MBind Result := fun _ _ k m =>
  match m with
  | Ok a => k a
  | Abort f => Abort f
  end.

(** [assert(c)]: nothing happens under NDEBUG. *)
Definition assertR (ndebug c : bool) : Result unit :=
  if ndebug then Ok tt else if c then Ok tt else Abort AssertionFailed.

(** Sequential [for] loop over the values [xs], threading the state. *)
Fixpoint forM {A S : Type} (xs : list A) (body : A -> S -> Result S) (s : S)
  : Result S :=
  match xs with
  | [] => Ok s
  | x :: xs' =>
      match body x s with
      | Ok s' => forM xs' body s'
      | Abort f => Abort f
      end
  end.

Definition u32 (x : Z) : Z := x mod 2 ^ 32.
Definition u64 (x : Z) : Z := x mod 2 ^ 64.

(** [v[i]] on a [std::vector]; indices are unsigned.  The source never checks
    the index: reads past the end are undefined in C++ and yield [d] here;
    every theorem below works under hypotheses that keep indices in range. *)
Definition at_ {A : Type} (d : A) (v : list A) (i : Z) : A :=
  nth (Z.to_nat i) v d.

(** ** Template parameters, build and per-host environment *)

Record TParams := {
  columnBlocked : bool;
  moreColumnHosts : bool;
  DecomposeFactor : Z
}.

(** The members of [DistGraph]/[DistGraphCartesianCut] that are fixed once
    [factorizeHosts] and [computeMasters] ran. *)
Record Host := {
  tp : TParams;
  ndebug : bool;
  id : Z;
  numHosts : Z;
  numGlobalNodes : Z;
  numRowHosts : Z;
  numColumnHosts : Z;
  numVirtualHosts : Z;
  gid2host : list (Z * Z);
  transposed : bool;
  hasBVFlag : bool          (* currentBVFlag != nullptr *)
}.

Definition onHost (h : Host) (x : Z) : Host :=
  {| tp := tp h; ndebug := ndebug h; id := x; numHosts := numHosts h;
     numGlobalNodes := numGlobalNodes h; numRowHosts := numRowHosts h;
     numColumnHosts := numColumnHosts h; numVirtualHosts := numVirtualHosts h;
     gid2host := gid2host h; transposed := transposed h;
     hasBVFlag := hasBVFlag h |}.

(** ** Grid *)

Module Grid.

(** The [while] loop of [factorizeHosts]: decrement the candidate until it
    divides [H].  A candidate of 0 means [H % 0]. *)
Fixpoint decrementToDivisor (H : Z) (c : nat) : Result Z :=
  match c with
  | O => Abort Undefined
  | S c' =>
      if H mod Z.of_nat c =? 0 then Ok (Z.of_nat c)
      else decrementToDivisor H c'
  end.

(** [factorizeHosts] up to and including the assertion, that is, before the
    orientation swap: (numRowHosts, numColumnHosts).  [sqrt] is the one of
    [double]; converted to [unsigned] it is the integer square root of any
    32-bit host count. *)
Definition factorPair (nd : bool) (H : Z) : Result (Z * Z) :=
  c ← decrementToDivisor H (Z.to_nat (Z.sqrt H));
  let r := H / c in
  _ ← assertR nd (c <=? r);
  Ok (r, c).

Record Factors := {
  f_numRowHosts : Z;
  f_numColumnHosts : Z;
  f_numVirtualHosts : Z
}.

Definition factorizeHosts (t : TParams) (nd : bool) (H : Z) : Result Factors :=
  let nv := u32 (H * DecomposeFactor t) in
  rc ← factorPair nd H;
  let '(r, c) := if moreColumnHosts t then (rc.2, rc.1) else rc in
  Ok {| f_numRowHosts := u32 (r * DecomposeFactor t);
        f_numColumnHosts := c;
        f_numVirtualHosts := nv |}.

Definition virtual2RealHost (h : Host) (v : Z) : Z := v mod numHosts h.
Definition gridRowID (h : Host) (x : Z) : Z := x / numColumnHosts h.
Definition gridColumnID (h : Host) (x : Z) : Z := x mod numColumnHosts h.

Definition getColumnHostIDOfBlock (h : Host) (blockID : Z) : Z :=
  if columnBlocked (tp h) then blockID / numRowHosts h
  else blockID mod numColumnHosts h.

End Grid.
Export Grid.

(** ** Sync policy *)

Inductive SyncType := syncReduce | syncBroadcast.
Inductive WriteLocation := writeSource | writeDestination | writeAny.
Inductive ReadLocation := readSource | readDestination | readAny.

(** Calls made on [currentBVFlag] when it is not null. *)
Inductive BVCall := make_src_invalid | make_dst_invalid.

Record Answer := {
  ret : Result bool;
  bvcalls : list BVCall
}.

Definition answer (r : Result bool) : Answer := {| ret := r; bvcalls := [] |}.

Definition flagged (h : Host) (c : BVCall) (r : Result bool) : Answer :=
  {| ret := r; bvcalls := if hasBVFlag h then [c] else [] |}.

Definition differs (a b : Z) : bool := negb (a =? b).

(** The [writeAny]/[readAny] arm, identical in the four places it occurs. *)
Definition anyArm (h : Host) (host : Z) : Result bool :=
  let sameRow := gridRowID h (id h) =? gridRowID h host in
  let sameCol := gridColumnID h (id h) =? gridColumnID h host in
  _ ← assertR (ndebug h) (sameRow || sameCol);
  Ok (negb sameRow && negb sameCol).

(** The [default: assert(false)] arms of the switches cannot be reached
    with the three values each location type has. *)
Definition isNotCommunicationPartner (h : Host) (host : Z)
    (syncType : SyncType) (writeLocation : WriteLocation)
    (readLocation : ReadLocation) : Answer :=
  let rowDiffers := differs (gridRowID h (id h)) (gridRowID h host) in
  let colDiffers := differs (gridColumnID h (id h)) (gridColumnID h host) in
  if transposed h then
    match syncType with
    | syncReduce =>
        match writeLocation with
        | writeSource => answer (Ok colDiffers)
        | writeDestination => answer (Ok rowDiffers)
        | writeAny => answer (anyArm h host)
        end
    | syncBroadcast =>
        match readLocation with
        | readSource => flagged h make_src_invalid (Ok colDiffers)
        | readDestination => flagged h make_dst_invalid (Ok rowDiffers)
        | readAny => answer (anyArm h host)
        end
    end
  else
    match syncType with
    | syncReduce =>
        match writeLocation with
        | writeSource => answer (Ok rowDiffers)
        | writeDestination => answer (Ok colDiffers)
        | writeAny => answer (anyArm h host)
        end
    | syncBroadcast =>
        match readLocation with
        | readSource => flagged h make_dst_invalid (Ok rowDiffers)
        | readDestination => flagged h make_src_invalid (Ok colDiffers)
        | readAny => answer (anyArm h host)
        end
    end.

(** [mirrorNodes] and [masterNodes] of the base class, indexed by real host. *)
Record ReplicaTables := {
  mirrorNodes : list (list Z);
  masterNodes : list (list Z)
}.

Definition sharedPolicy (h : Host) (sharedNodes : list (list Z)) (host : Z)
    (syncType : SyncType) (writeLocation : WriteLocation)
    (readLocation : ReadLocation) : Answer :=
  match sharedNodes !! Z.to_nat host with
  | None => answer (Abort Undefined)
  | Some l =>
      if 0 <? Z.of_nat (length l) then
        if columnBlocked (tp h) then answer (Ok false)
        else isNotCommunicationPartner h host syncType writeLocation
               readLocation
      else answer (Ok true)
  end.

Definition nothingToSend (h : Host) (t : ReplicaTables) (host : Z)
    (syncType : SyncType) (writeLocation : WriteLocation)
    (readLocation : ReadLocation) : Answer :=
  let sharedNodes :=
    match syncType with
    | syncReduce => mirrorNodes t
    | syncBroadcast => masterNodes t
    end in
  sharedPolicy h sharedNodes host syncType writeLocation readLocation.

Definition nothingToRecv (h : Host) (t : ReplicaTables) (host : Z)
    (syncType : SyncType) (writeLocation : WriteLocation)
    (readLocation : ReadLocation) : Answer :=
  let sharedNodes :=
    match syncType with
    | syncReduce => masterNodes t
    | syncBroadcast => mirrorNodes t
    end in
  sharedPolicy h sharedNodes host syncType writeLocation readLocation.

(** ** Block map queries *)

Definition rangeOf (h : Host) (v : Z) : Z * Z := at_ (0, 0) (gid2host h) v.

Definition inRange (gid : Z) (r : Z * Z) : bool :=
  (r.1 <=? gid) && (gid <? r.2).

(** [getHostID]: the first virtual host whose range holds [gid].  The leading
    [assert(gid < numGlobalNodes)] and the trailing [assert(false)] are
    preconditions on the caller (they hold whenever the ranges cover
    [0, numGlobalNodes)); the value returned after the loop is the one a
    build with NDEBUG returns. *)
Definition getHostID (h : Host) (gid : Z) : Z :=
  match find (fun v => inRange gid (rangeOf h v))
             (seqZ 0 (numVirtualHosts h)) with
  | Some v => v
  | None => numHosts h
  end.

Definition getBlockID (h : Host) (gid : Z) : Z :=
  getHostID h gid mod numHosts h.

Definition getColumnHostID (h : Host) (gid : Z) : Z :=
  getColumnHostIDOfBlock h (getBlockID h gid).

(** The loop of [getColumnIndex] over the blocks [bs], with the running
    [uint32_t columnIndex]. *)
Fixpoint columnIndexLoop (h : Host) (gid col : Z) (bs : list Z)
    (columnIndex : Z) : Z :=
  match bs with
  | [] => columnIndex
  | b :: bs' =>
      if getColumnHostIDOfBlock h b =? col then
        let '(start, end_) := rangeOf h b in
        if gid <? end_ then u32 (columnIndex + u64 (gid - start)) (* break *)
        else columnIndexLoop h gid col bs'
               (u32 (columnIndex + u64 (end_ - start)))
      else columnIndexLoop h gid col bs' columnIndex
  end.

Definition getColumnIndex (h : Host) (gid : Z) : Z :=
  let blockID := getBlockID h gid in
  let col := getColumnHostIDOfBlock h blockID in
  columnIndexLoop h gid col (seqZ 0 (blockID + 1)) 0.

(** The virtual hosts of this real host: [id + d * numHosts]. *)
Definition ownVirtual (h : Host) (d : Z) : Z := id h + d * numHosts h.

Definition decomposition (h : Host) : list Z :=
  seqZ 0 (DecomposeFactor (tp h)).

Definition isOwned (h : Host) (gid : Z) : bool :=
  existsb (fun d => inRange gid (rangeOf h (ownVirtual h d)))
          (decomposition h).

(** ** Local index *)

Record Local := {
  localToGlobalVector : list Z;
  globalToLocalMap : gmap Z Z;
  numNodes : Z;                (* uint32_t *)
  numEdges : Z;                (* uint64_t *)
  dummyOutgoingNodes : Z;      (* uint32_t *)
  numOwned : Z;
  numNodesWithEdges : Z;
  prefixSumOfEdges : list Z;
  warnings : nat               (* number of galois::gWarn calls *)
}.

Definition isLocal (h : Host) (l : Local) (gid : Z) : bool :=
  isOwned h gid || bool_decide (is_Some (globalToLocalMap l !! gid)).

Definition G2L (h : Host) (l : Local) (gid : Z) : Result Z :=
  _ ← assertR (ndebug h) (isLocal h l gid);
  match globalToLocalMap l !! gid with
  | Some lid => Ok lid
  | None => Abort OutOfRange
  end.

Definition L2G (l : Local) (lid : Z) : Z := at_ 0 (localToGlobalVector l) lid.

(** ** The global graph, as the buffered reader presents it *)

(** Out-neighbours of every global node, in file order. *)
Definition Graph := list (list Z).

Definition edgesOf (g : Graph) (src : Z) : list Z := at_ [] g src.

Definition globalEdges (g : Graph) : list (Z * Z) :=
  concat (imap (fun s ts => map (fun t => (Z.of_nat s, t)) ts) g).

(** ** Inspector (first pass) *)

(** [galois::DynamicBitSet], as the sequence of its bits.  The source calls
    [set] and [test] without checking the index, and an index past the size
    is undefined there; here such a [set] leaves the bits alone and such a
    [test] answers false.  What is proved about the contents of the bits or
    about a pass that completes keeps the indices below the size. *)
Definition DynamicBitSet := list bool.

Definition bitset_set (b : DynamicBitSet) (i : Z) : DynamicBitSet :=
  <[Z.to_nat i := true]> b.
Definition bitset_test (b : DynamicBitSet) (i : Z) : bool := at_ false b i.
Definition bitwise_or (a b : DynamicBitSet) : DynamicBitSet :=
  imap (fun k x => x || nth k b false) a.

Definition upd {A : Type} (v : list A) (i : Z) (f : A -> A) : list A :=
  alter f (Z.to_nat i) v.

Record Inspection := {
  numOutgoingEdges : list (list (list Z));   (* [d][column][source offset] *)
  hasIncomingEdge : list DynamicBitSet       (* [column] *)
}.

Definition rangeSize (h : Host) (v : Z) : Z :=
  u64 ((rangeOf h v).2 - (rangeOf h v).1).

Definition columnBlockSize (h : Host) (i : Z) : Z :=
  foldl (fun acc b =>
           if getColumnHostIDOfBlock h b =? i then u64 (acc + rangeSize h b)
           else acc)
        0 (seqZ 0 (numVirtualHosts h)).

Definition columns (h : Host) : list Z := seqZ 0 (numColumnHosts h).

Definition sourcesOf (h : Host) (v : Z) : list Z :=
  seqZ (rangeOf h v).1 ((rangeOf h v).2 - (rangeOf h v).1).

Definition emptyInspection (h : Host) : Inspection :=
  {| numOutgoingEdges :=
       map (fun d => map (fun _ =>
              replicate (Z.to_nat (rangeSize h (ownVirtual h d))) 0)
              (columns h))
           (decomposition h);
     hasIncomingEdge :=
       map (fun i => replicate (Z.to_nat (columnBlockSize h i)) false)
           (columns h) |}.

(** One edge [src -> dst] read while inspecting the [d]-th own range. *)
Definition inspectEdge (h : Host) (d src dst : Z) (ins : Inspection)
  : Inspection :=
  let c := getColumnHostID h dst in
  let rowOffset := (rangeOf h (ownVirtual h d)).1 in
  {| hasIncomingEdge :=
       upd (hasIncomingEdge ins) c
           (fun b => bitset_set b (getColumnIndex h dst));
     numOutgoingEdges :=
       upd (numOutgoingEdges ins) d (fun perColumn =>
         upd perColumn c (fun v =>
           upd v (src - rowOffset) (fun n => u64 (n + 1)))) |}.

(** The inspection loops.  [do_all] runs the sources concurrently; the updates
    commute, so the ascending order is as good as any. *)
Definition inspect (h : Host) (g : Graph) : Inspection :=
  foldl (fun ins d =>
    foldl (fun ins src =>
      foldl (fun ins dst => inspectEdge h d src dst ins) ins (edgesOf g src))
      ins (sourcesOf h (ownVirtual h d)))
    (emptyInspection h) (decomposition h).

(** ** Metadata exchange *)

Record MetaBuffer := {
  sender : Z;
  target : Z;
  degrees : list (list Z);       (* numOutgoingEdges[d][i], d = 0 .. D-1 *)
  bits : DynamicBitSet           (* hasIncomingEdge[i] *)
}.

Definition sendBuffers (h : Host) (ins : Inspection) : list MetaBuffer :=
  flat_map (fun i =>
    let t := gridRowID h (id h) * numColumnHosts h + i in
    if t =? id h then []
    else [ {| sender := id h; target := t;
              degrees := map (fun d => at_ [] (at_ [] (numOutgoingEdges ins) d) i)
                             (decomposition h);
              bits := at_ [] (hasIncomingEdge ins) i |} ])
    (columns h).

(** The network hands a host the buffers addressed to it; every host runs
    the same send loop on its own inspection. *)
Definition metaInbox (h : Host) (g : Graph) : list MetaBuffer :=
  filter (fun m => target m = id h)
    (flat_map (fun p => sendBuffers (onHost h p) (inspect (onHost h p) g))
              (seqZ 0 (numHosts h))).

Definition mergeBuffer (h : Host) (m : MetaBuffer) (ins : Inspection)
  : Inspection :=
  let c := sender m mod numColumnHosts h in
  {| numOutgoingEdges :=
       foldl (fun no d =>
                upd no d (fun perColumn =>
                  <[Z.to_nat c := at_ [] (degrees m) d]> perColumn))
             (numOutgoingEdges ins) (decomposition h);
     hasIncomingEdge := <[Z.to_nat c := bits m]> (hasIncomingEdge ins) |}.

(** The receive loop: [numColumnHosts - 1] buffers are awaited. *)
Fixpoint receiveBuffers (h : Host) (n : nat) (inbox : list MetaBuffer)
    (ins : Inspection) : Result Inspection :=
  match n with
  | O => Ok ins
  | S n' =>
      match inbox with
      | [] => Abort Blocked
      | m :: rest => receiveBuffers h n' rest (mergeBuffer h m ins)
      end
  end.

Definition orReduce (h : Host) (ins : Inspection) : Inspection :=
  {| numOutgoingEdges := numOutgoingEdges ins;
     hasIncomingEdge :=
       foldl (fun hi i =>
                upd hi 0 (fun b0 => bitwise_or b0 (at_ [] hi i)))
             (hasIncomingEdge ins) (seqZ 1 (numColumnHosts h - 1)) |}.

Definition exchange (h : Host) (inbox : list MetaBuffer) (ins : Inspection)
  : Result Inspection :=
  merged ← receiveBuffers h (Z.to_nat (numColumnHosts h - 1)) inbox ins;
  Ok (orReduce h merged).

(** ** LocalIndex layout (the second half of loadStatistics) *)

Definition emptyLocal (owned : Z) : Local :=
  {| localToGlobalVector := []; globalToLocalMap := ∅; numNodes := 0;
     numEdges := 0; dummyOutgoingNodes := 0; numOwned := owned;
     numNodesWithEdges := 0; prefixSumOfEdges := []; warnings := 0 |}.

Definition addEdges (n : Z) (l : Local) : Local :=
  {| localToGlobalVector := localToGlobalVector l;
     globalToLocalMap := globalToLocalMap l; numNodes := numNodes l;
     numEdges := u64 (numEdges l + n);
     dummyOutgoingNodes := dummyOutgoingNodes l; numOwned := numOwned l;
     numNodesWithEdges := numNodesWithEdges l;
     prefixSumOfEdges := prefixSumOfEdges l; warnings := warnings l |}.

Definition countDummy (l : Local) : Local :=
  {| localToGlobalVector := localToGlobalVector l;
     globalToLocalMap := globalToLocalMap l; numNodes := numNodes l;
     numEdges := numEdges l;
     dummyOutgoingNodes := u32 (dummyOutgoingNodes l + 1);
     numOwned := numOwned l; numNodesWithEdges := numNodesWithEdges l;
     prefixSumOfEdges := prefixSumOfEdges l; warnings := warnings l |}.

Definition gWarn (l : Local) : Local :=
  {| localToGlobalVector := localToGlobalVector l;
     globalToLocalMap := globalToLocalMap l; numNodes := numNodes l;
     numEdges := numEdges l; dummyOutgoingNodes := dummyOutgoingNodes l;
     numOwned := numOwned l; numNodesWithEdges := numNodesWithEdges l;
     prefixSumOfEdges := prefixSumOfEdges l; warnings := S (warnings l) |}.

Definition markNodesWithEdges (l : Local) : Local :=
  {| localToGlobalVector := localToGlobalVector l;
     globalToLocalMap := globalToLocalMap l; numNodes := numNodes l;
     numEdges := numEdges l; dummyOutgoingNodes := dummyOutgoingNodes l;
     numOwned := numOwned l; numNodesWithEdges := numNodes l;
     prefixSumOfEdges := prefixSumOfEdges l; warnings := warnings l |}.

(** The four statements that materialise a local node:
    push_back, the duplicate assertion, the map entry with [numNodes++], and
    the prefix-sum entry. *)
Definition createNode (nd : bool) (gid : Z) (l : Local) : Result Local :=
  _ ← assertR nd (bool_decide (globalToLocalMap l !! gid = None));
  Ok {| localToGlobalVector := localToGlobalVector l ++ [gid];
        globalToLocalMap := <[gid := numNodes l]> (globalToLocalMap l);
        numNodes := u32 (numNodes l + 1);
        numEdges := numEdges l;
        dummyOutgoingNodes := dummyOutgoingNodes l; numOwned := numOwned l;
        numNodesWithEdges := numNodesWithEdges l;
        prefixSumOfEdges := prefixSumOfEdges l ++ [numEdges l];
        warnings := warnings l |}.

(** [for j < v.size()] with [src] starting at [first] and bumped each turn. *)
Definition offsets (first : Z) (v : list Z) : list (Z * Z) :=
  imap (fun j n => (first + Z.of_nat j, n)) v.

Definition outDegrees (ins : Inspection) (d i : Z) : list Z :=
  at_ [] (at_ [] (numOutgoingEdges ins) d) i.

Definition incomingBit (h : Host) (ins : Inspection) (gid : Z) : bool :=
  bitset_test (at_ [] (hasIncomingEdge ins) 0) (getColumnIndex h gid).

(** Step 1: the owned masters. *)
Definition layoutMasters (h : Host) (ins : Inspection) : Local -> Result Local :=
  forM (decomposition h) (fun d =>
    let hostID := ownVirtual h d in
    let i := gridColumnID h (id h) in
    forM (offsets (rangeOf h hostID).1 (outDegrees ins d i)) (fun '(src, n) l =>
      createNode (ndebug h) src (addEdges n l))).

(** The test of the [else if] in step 2. *)
Definition dummyOutgoingCase (h : Host) (ins : Inspection) (i src : Z) : bool :=
  (gridColumnID h (id h + i * numHosts h) =? getColumnHostID h src)
  && incomingBit h ins src.

(** Body of the [j] loop of step 2. *)
Definition visitOutgoing (h : Host) (ins : Inspection) (i src n : Z)
    (l : Local) : Result Local :=
  if 0 <? n then createNode (ndebug h) src (addEdges n l)
  else if dummyOutgoingCase h ins i src then
    if columnBlocked (tp h) then createNode (ndebug h) src (countDummy l)
    else
      let l' := gWarn l in
      _ ← assertR (ndebug h) false;            (* should be owned *)
      createNode (ndebug h) src l'
  else Ok l.

(** Step 2: sources of the row peers. *)
Definition layoutOutgoing (h : Host) (ins : Inspection) : Local -> Result Local :=
  forM (decomposition h) (fun d =>
    let leaderHostID := gridRowID h (ownVirtual h d) * numColumnHosts h in
    forM (columns h) (fun i l =>
      let hostID := leaderHostID + i in
      if virtual2RealHost h hostID =? id h then Ok l
      else
        forM (offsets (rangeOf h hostID).1 (outDegrees ins d i))
             (fun '(src, n) => visitOutgoing h ins i src n) l)).

(** The virtual host visited at turn [i] of step 3. *)
Definition incomingPeer (h : Host) (i : Z) : Z :=
  if columnBlocked (tp h) then gridColumnID h (id h) * numRowHosts h + i
  else i * numColumnHosts h + gridColumnID h (id h).

(** [skip] of step 3 in checkerboard mode: the peer lies in one of the grid
    rows of this host's virtual hosts. *)
Definition inOwnRows (h : Host) (v : Z) : bool :=
  existsb (fun d =>
             let leaderHostID :=
               gridRowID h (ownVirtual h d) * numColumnHosts h in
             (leaderHostID <=? v) && (v <? leaderHostID + numColumnHosts h))
          (decomposition h).

(** Step 3: destinations held by the column peers. *)
Definition layoutIncoming (h : Host) (ins : Inspection) : Local -> Result Local :=
  forM (seqZ 0 (numRowHosts h)) (fun i l =>
    let hostID_virtual := incomingPeer h i in
    if virtual2RealHost h hostID_virtual =? id h then Ok l
    else if columnBlocked (tp h) && inOwnRows h hostID_virtual then Ok l
    else
      forM (sourcesOf h hostID_virtual) (fun dst l =>
        if incomingBit h ins dst then createNode (ndebug h) dst l
        else Ok l) l).

Definition ownedCount (h : Host) : Z :=
  foldl (fun acc d => u32 (acc + rangeSize h (ownVirtual h d))) 0
        (decomposition h).

Definition layout (h : Host) (ins : Inspection) : Result Local :=
  l1 ← layoutMasters h ins (emptyLocal (ownedCount h));
  l2 ← layoutOutgoing h ins l1;
  layoutIncoming h ins (markNodesWithEdges l2).

(** [loadStatistics]: inspection, exchange with the row, layout. *)
Definition loadStatistics (h : Host) (g : Graph) : Result Local :=
  ins ← exchange h (metaInbox h g) (inspect h g);
  layout h ins.

(** ** Edge loader (second pass) *)

(** The local CSR container ([base_DistGraph::graph]): end offset per node,
    destination per edge slot.  [built] is a ghost log of the global edges
    whose [constructEdge] ran, in construction order. *)
Record LC_CSR := {
  edgeEnd : list Z;
  edgeDst : list (option Z);
  built : list (Z * Z)
}.

Definition allocateFrom (nodes edges : Z) : LC_CSR :=
  {| edgeEnd := replicate (Z.to_nat nodes) 0;
     edgeDst := replicate (Z.to_nat edges) None;
     built := [] |}.

Definition fixEndEdge (n v : Z) (c : LC_CSR) : LC_CSR :=
  {| edgeEnd := <[Z.to_nat n := v]> (edgeEnd c); edgeDst := edgeDst c;
     built := built c |}.

Definition edge_begin (c : LC_CSR) (n : Z) : Z :=
  if n =? 0 then 0 else at_ 0 (edgeEnd c) (n - 1).
Definition edge_end (c : LC_CSR) (n : Z) : Z := at_ 0 (edgeEnd c) n.

Definition constructEdge (cur ldst : Z) (e : Z * Z) (c : LC_CSR)
  : Result LC_CSR :=
  if (0 <=? cur) && (cur <? Z.of_nat (length (edgeDst c))) then
    Ok {| edgeEnd := edgeEnd c;
          edgeDst := <[Z.to_nat cur := Some ldst]> (edgeDst c);
          built := built c ++ [e] |}
  else Abort Undefined.

(** One record of an edge buffer: a source and the destinations that one
    column peer has to construct.  Each record travels as a buffer of its
    own, which is what a small [edgePartitionSendBufSize] produces. *)
Record EdgeBuffer := {
  e_target : Z;
  e_src : Z;
  e_dsts : list Z
}.

Definition h_offset (h : Host) : Z := gridRowID h (id h) * numColumnHosts h.

(** The edges of one source, split as the inner loop of [loadEdgesFromFile]
    does: the destinations constructed here, and [gdst_vec] per column. *)
Definition splitByColumn (h : Host) (dsts : list Z) : list Z * list (list Z) :=
  foldl (fun '(mine, gdst_vec) gdst =>
           let i := getColumnHostID h gdst in
           if h_offset h + i =? id h then (mine ++ [gdst], gdst_vec)
           else (mine, upd gdst_vec i (fun v => v ++ [gdst])))
        ([], replicate (Z.to_nat (numColumnHosts h)) []) dsts.

Definition serializeNode (h : Host) (n : Z) (gdst_vec : list (list Z))
  : list EdgeBuffer :=
  flat_map (fun i =>
              let v := at_ [] gdst_vec i in
              if 0 <? Z.of_nat (length v) then
                [ {| e_target := h_offset h + i; e_src := n; e_dsts := v |} ]
              else [])
           (columns h).

(** Everything host [h] sends during the second pass. *)
Definition outbound (h : Host) (g : Graph) : list EdgeBuffer :=
  flat_map (fun d =>
    flat_map (fun n => serializeNode h n (splitByColumn h (edgesOf g n)).2)
             (sourcesOf h (ownVirtual h d)))
    (decomposition h).

Definition edgeInbox (h : Host) (g : Graph) : list EdgeBuffer :=
  filter (fun b => e_target b = id h)
    (flat_map (fun p => outbound (onHost h p) g) (seqZ 0 (numHosts h))).

(** Construct [dsts] for the global source [n] from the cursor on. *)
Definition constructFrom (h : Host) (l : Local) (n : Z) (dsts : list Z)
    (st : Z * LC_CSR) : Result (Z * LC_CSR) :=
  forM dsts (fun gdst '(cur, c) =>
    ldst ← G2L h l gdst;
    c' ← constructEdge cur ldst (n, gdst) c;
    Ok (cur + 1, c')) st.

(** The body of the [do_all] of [loadEdgesFromFile] for the source [n],
    without the opportunistic receive at its end. *)
Definition loadNode (h : Host) (l : Local) (g : Graph) (n : Z) (c : LC_CSR)
  : Result LC_CSR :=
  let mine := (splitByColumn h (edgesOf g n)).1 in
  if isLocal h l n then
    lsrc ← G2L h l n;
    st ← constructFrom h l n mine (edge_begin c lsrc, c);
    _ ← assertR (ndebug h) (st.1 =? edge_end st.2 lsrc);
    Ok st.2
  else
    _ ← assertR (ndebug h) (bool_decide (mine = []));
    st ← constructFrom h l n mine (0, c);
    Ok st.2.

Definition loadEdgesFromFile (h : Host) (l : Local) (g : Graph)
  : LC_CSR -> Result LC_CSR :=
  forM (decomposition h) (fun d =>
    forM (sourcesOf h (ownVirtual h d)) (loadNode h l g)).

(** [processReceivedEdgeBuffer] with [deserializeEdges]: the slot of the
    source is filled from its begin to its end. *)
Definition processReceivedEdgeBuffer (h : Host) (l : Local) (b : EdgeBuffer)
    (c : LC_CSR) : Result LC_CSR :=
  _ ← assertR (ndebug h) (isLocal h l (e_src b));
  lsrc ← G2L h l (e_src b);
  let cur := edge_begin c lsrc in
  let cur_end := edge_end c lsrc in
  _ ← assertR (ndebug h) (cur_end - cur =? Z.of_nat (length (e_dsts b)));
  st ← forM (seqZ 0 (cur_end - cur)) (fun k '(cur, c) =>
          match e_dsts b !! Z.to_nat k with
          | None => Abort Undefined
          | Some gdst =>
              ldst ← G2L h l gdst;
              c' ← constructEdge cur ldst (e_src b, gdst) c;
              Ok (cur + 1, c')
          end) (cur, c);
  Ok st.2.

(** [receiveEdges]: buffers are awaited until the counter reaches
    [numNodesWithEdges]. *)
Fixpoint receiveEdges (h : Host) (l : Local) (inbox : list EdgeBuffer)
    (counter : Z) (c : LC_CSR) : Result LC_CSR :=
  if numNodesWithEdges l <=? counter then Ok c
  else
    match inbox with
    | [] => Abort Blocked
    | b :: rest =>
        match processReceivedEdgeBuffer h l b c with
        | Ok c' => receiveEdges h l rest (u32 (counter + 1)) c'
        | Abort f => Abort f
        end
    end.

Definition loadEdges (h : Host) (l : Local) (g : Graph) (c : LC_CSR)
  : Result LC_CSR :=
  let counter := u32 (numOwned l + dummyOutgoingNodes l) in
  c' ← loadEdgesFromFile h l g c;
  receiveEdges h l (edgeInbox h g) counter c'.

(** ** Replica tables *)

Definition pushLocal (l : Local) (real gid : Z) (mirrors : list (list Z))
  : list (list Z) :=
  if bool_decide (is_Some (globalToLocalMap l !! gid)) then
    upd mirrors real (fun v => v ++ [gid])
  else mirrors.

Definition fillMirrorNodes (h : Host) (l : Local) (mirrors : list (list Z))
  : list (list Z) :=
  (* mirrors for outgoing edges *)
  let outgoing :=
    foldl (fun m d =>
      foldl (fun m i =>
        let hostID_virtual :=
          gridRowID h (ownVirtual h d) * numColumnHosts h + i in
        if hostID_virtual =? ownVirtual h d then m
        else
          let hostID_real := virtual2RealHost h hostID_virtual in
          foldl (fun m src => pushLocal l hostID_real src m) m
                (sourcesOf h hostID_virtual))
        m (columns h))
      mirrors (decomposition h) in
  (* mirrors for incoming edges *)
  foldl (fun m d =>
    let leaderHostID := gridRowID h (ownVirtual h d) * numColumnHosts h in
    foldl (fun m i =>
      let hostID_virtual :=
        if columnBlocked (tp h)
        then gridColumnID h (ownVirtual h d) * numRowHosts h + i
        else i * numColumnHosts h + gridColumnID h (ownVirtual h d) in
      if hostID_virtual =? ownVirtual h d then m
      else if columnBlocked (tp h) && (leaderHostID <=? hostID_virtual)
              && (hostID_virtual <? leaderHostID + numColumnHosts h) then m
      else
        let hostID_real := virtual2RealHost h hostID_virtual in
        foldl (fun m dst => pushLocal l hostID_real dst m) m
              (sourcesOf h hostID_virtual))
      m (seqZ 0 (numRowHosts h)))
    outgoing (decomposition h).

(** ** The constructor *)

Record Partition := {
  env : Host;
  loc : Local;
  graph : LC_CSR;
  beginMaster : Z;
  tables : ReplicaTables
}.

Definition mkHost (t : TParams) (nd : bool) (host hosts : Z) (g : Graph)
    (ranges : list (Z * Z)) (f : Factors) : Host :=
  {| tp := t; ndebug := nd; id := host; numHosts := hosts;
     numGlobalNodes := Z.of_nat (length g);
     numRowHosts := f_numRowHosts f; numColumnHosts := f_numColumnHosts f;
     numVirtualHosts := f_numVirtualHosts f; gid2host := ranges;
     transposed := false; hasBVFlag := false |}.

Definition setNodesWithEdges (n : Z) (l : Local) : Local :=
  {| localToGlobalVector := localToGlobalVector l;
     globalToLocalMap := globalToLocalMap l; numNodes := numNodes l;
     numEdges := numEdges l; dummyOutgoingNodes := dummyOutgoingNodes l;
     numOwned := numOwned l; numNodesWithEdges := n;
     prefixSumOfEdges := prefixSumOfEdges l; warnings := warnings l |}.

Definition setTransposed (h : Host) : Host :=
  {| tp := tp h; ndebug := ndebug h; id := id h; numHosts := numHosts h;
     numGlobalNodes := numGlobalNodes h; numRowHosts := numRowHosts h;
     numColumnHosts := numColumnHosts h; numVirtualHosts := numVirtualHosts h;
     gid2host := gid2host h; transposed := true; hasBVFlag := hasBVFlag h |}.

(** The constructor on the path that partitions ([readFromFile = false]).
    [ranges] is what [computeMasters] of the base class left in [gid2host]. *)
Definition construct (t : TParams) (nd : bool) (host hosts : Z) (g : Graph)
    (ranges : list (Z * Z)) (transpose : bool) : Result Partition :=
  f ← factorizeHosts t nd hosts;
  let h := mkHost t nd host hosts g ranges f in
  l ← loadStatistics h g;
  let c0 := allocateFrom (numNodes l) (numEdges l) in
  _ ← assertR nd (Z.of_nat (length (prefixSumOfEdges l)) =? numNodes l);
  let c1 := foldl (fun c n => fixEndEdge n (at_ 0 (prefixSumOfEdges l) n) c)
                  c0 (seqZ 0 (numNodes l)) in
  bm ← (if negb (numOwned l =? 0) then G2L h l (rangeOf h (id h)).1
        else Ok 0);
  c2 ← loadEdges h l g c1;
  let l := if columnBlocked t then setNodesWithEdges (numNodes l) l else l in
  let l := if transpose then setNodesWithEdges (numNodes l) l else l in
  let h := if transpose then setTransposed h else h in
  Ok {| env := h; loc := l; graph := c2; beginMaster := bm;
        tables := {| mirrorNodes :=
                       fillMirrorNodes h l (replicate (Z.to_nat hosts) []);
                     masterNodes := replicate (Z.to_nat hosts) [] |} |}.

(** ** Persistence of the local graph *)

(** A binary archive as the sequence of the values written to it. *)
Inductive Item :=
  | I_unsigned (x : Z)
  | I_vector (v : list Z)
  | I_map (m : gmap Z Z).

Definition Archive := list Item.

Definition boostSerializeLocalGraph (p : Partition) (ar : Archive) : Archive :=
  ar ++ [ I_unsigned (numNodes (loc p));
          I_unsigned (numRowHosts (env p));
          I_unsigned (numColumnHosts (env p));
          I_vector (localToGlobalVector (loc p));
          I_map (globalToLocalMap (loc p)) ].

Definition readUnsigned (ar : Archive) : Result (Z * Archive) :=
  match ar with
  | I_unsigned x :: rest => Ok (x, rest)
  | _ => Abort Undefined
  end.
Definition readVector (ar : Archive) : Result (list Z * Archive) :=
  match ar with
  | I_vector v :: rest => Ok (v, rest)
  | _ => Abort Undefined
  end.
Definition readMap (ar : Archive) : Result (gmap Z Z * Archive) :=
  match ar with
  | I_map m :: rest => Ok (m, rest)
  | _ => Abort Undefined
  end.

Definition boostDeSerializeLocalGraph (p : Partition) (ar : Archive)
  : Result (Partition * Archive) :=
  '(nodes, ar) ← readUnsigned ar;
  '(rows, ar) ← readUnsigned ar;
  '(cols, ar) ← readUnsigned ar;
  '(l2g, ar) ← readVector ar;
  '(g2l, ar) ← readMap ar;
  let h := env p in
  let l := loc p in
  Ok ({| env := {| tp := tp h; ndebug := ndebug h; id := id h;
                   numHosts := numHosts h;
                   numGlobalNodes := numGlobalNodes h;
                   numRowHosts := rows; numColumnHosts := cols;
                   numVirtualHosts := numVirtualHosts h;
                   gid2host := gid2host h; transposed := transposed h;
                   hasBVFlag := hasBVFlag h |};
         loc := {| localToGlobalVector := l2g; globalToLocalMap := g2l;
                   numNodes := nodes; numEdges := numEdges l;
                   dummyOutgoingNodes := dummyOutgoingNodes l;
                   numOwned := numOwned l;
                   numNodesWithEdges := numNodesWithEdges l;
                   prefixSumOfEdges := prefixSumOfEdges l;
                   warnings := warnings l |};
         graph := graph p; beginMaster := beginMaster p;
         tables := tables p |}, ar).

(** ** Queries on the finished partition *)

Definition is_vertex_cut (h : Host) : bool :=
  if moreColumnHosts (tp h) then
    (* IEC and OEC will be reversed, so do not handle it as an edge-cut *)
    if (numRowHosts h =? 1) && (numColumnHosts h =? 1) then false else true
  else
    (* IEC or OEC *)
    if (numRowHosts h =? 1) || (numColumnHosts h =? 1) then false else true.

(** [reset_bitset]: the calls made on [bitset_reset_range], in order; both
    bounds of a call are inclusive.  [beginMaster] and [numOwned] are
    members of the base class. *)
Definition reset_bitset (p : Partition) (syncType : SyncType)
  : list (Z * Z) :=
  if negb (numOwned (loc p) =? 0) then
    let endMaster := beginMaster p + numOwned (loc p) in
    match syncType with
    | syncBroadcast => [(beginMaster p, endMaster - 1)]
    | syncReduce =>
        (if 0 <? beginMaster p then [(0, beginMaster p - 1)] else [])
        ++ (if endMaster <? numNodes (loc p)
            then [(endMaster, numNodes (loc p) - 1)] else [])
    end
  else [].

(** [getMirrorRanges]: pairs (first, one past the last) of 32-bit local
    ids. *)
Definition getMirrorRanges (p : Partition) : list (Z * Z) :=
  let endMaster := beginMaster p + numOwned (loc p) in
  (if 0 <? beginMaster p then [(u32 0, u32 (beginMaster p))] else [])
  ++ (if endMaster <? numNodes (loc p)
      then [(u32 endMaster, u32 (numNodes (loc p)))] else []).

(** ** Vocabulary of the specification *)

(** [c] is the largest divisor of [H] that does not exceed [floor (sqrt H)]. *)
Definition largestDivisorUpToSqrt (H c : Z) : Prop :=
  0 < c /\ (c | H) /\ c <= Z.sqrt H /\
  forall c', 0 < c' -> (c' | H) -> c' <= Z.sqrt H -> c' <= c.

Definition sameRow (h : Host) (p : Z) : Prop :=
  gridRowID h (id h) = gridRowID h p.
Definition sameColumn (h : Host) (p : Z) : Prop :=
  gridColumnID h (id h) = gridColumnID h p.

(** The location column of the sync-policy table, and the table itself. *)
Inductive Location := Source | Destination | Any.

Definition keyedOn (s : SyncType) (w : WriteLocation) (r : ReadLocation)
  : Location :=
  match s with
  | syncReduce =>
      match w with
      | writeSource => Source
      | writeDestination => Destination
      | writeAny => Any
      end
  | syncBroadcast =>
      match r with
      | readSource => Source
      | readDestination => Destination
      | readAny => Any
      end
  end.

Definition sendNeeded (h : Host) (p : Z) (l : Location) : Prop :=
  match l with
  | Source => sameRow h p
  | Destination => sameColumn h p
  | Any => sameRow h p \/ sameColumn h p
  end.

(** The shared-node list consulted by each predicate. *)
Definition sendList (s : SyncType) (t : ReplicaTables) : list (list Z) :=
  match s with
  | syncReduce => mirrorNodes t
  | syncBroadcast => masterNodes t
  end.
Definition recvList (s : SyncType) (t : ReplicaTables) : list (list Z) :=
  match s with
  | syncReduce => masterNodes t
  | syncBroadcast => mirrorNodes t
  end.

(** Modelled from the spec: the round of [setup_communication] (base class,
    not part of this file) that fills [masterNodes]: "masterNodes[h] is the
    reciprocal set populated by an exchange phase outside this core".
    [mirrorsOf x] is the [mirrorNodes] table of host [x]; host [y] ends up
    with, for every peer [x], the list [x] keeps for [y]. *)
Definition exchangeMasters (hosts : Z) (mirrorsOf : Z -> list (list Z)) (y : Z)
  : list (list Z) :=
  map (fun x => at_ [] (mirrorsOf x) y) (seqZ 0 hosts).

(** [y]'s master list for [x] has the entries of [x]'s mirror list for [y],
    and the other way round.  Both hosts later rewrite their lists to local
    ids, so only the number of entries is compared. *)
Definition reciprocal (x y : Z) (tx ty : ReplicaTables) : Prop :=
  length <$> masterNodes ty !! Z.to_nat x
    = length <$> mirrorNodes tx !! Z.to_nat y /\
  length <$> masterNodes tx !! Z.to_nat y
    = length <$> mirrorNodes ty !! Z.to_nat x.

(** The block map invariant: the ranges follow one another from 0 to [n]. *)
Fixpoint chained (start : Z) (ranges : list (Z * Z)) (n : Z) : Prop :=
  match ranges with
  | [] => start = n
  | r :: rest => r.1 = start /\ r.1 <= r.2 /\ chained r.2 rest n
  end.

Definition contiguousCover (ranges : list (Z * Z)) (n : Z) : Prop :=
  chained 0 ranges n.

(** Position of the first occurrence of [x] in [l]. *)
Fixpoint indexOf (x : Z) (l : list Z) : option Z :=
  match l with
  | [] => None
  | y :: l' => if x =? y then Some 0 else Z.succ <$> indexOf x l'
  end.

(** The concatenation, in ascending order, of the ranges of [gid2host]
    whose block has column peer [col]; the block of the range of virtual
    host [v] is [v mod numHosts].  [columnPrefix] stops before the range of
    virtual host [n]. *)
Definition columnPrefix (h : Host) (col n : Z) : list Z :=
  flat_map (fun v =>
              if getColumnHostIDOfBlock h (v mod numHosts h) =? col
              then sourcesOf h v else [])
           (seqZ 0 n).

Definition columnMembers (h : Host) (col : Z) : list Z :=
  columnPrefix h col (numVirtualHosts h).

(** The column index as the specification defines it. *)
Definition columnOffset (h : Host) (gid : Z) : option Z :=
  indexOf gid (columnMembers h (getColumnHostID h gid)).

(** The edges a run constructed; none when it stopped. *)
Definition constructedBy (r : Result Partition) : list (Z * Z) :=
  match r with
  | Ok p => built (graph p)
  | Abort _ => []
  end.

(** Turn [j] of the [j] loop of step 2, for the [d]-th own range and the
    column [i], meets the dummy-outgoing case: the peer is not this host,
    the source has no recorded outgoing edge, shares the column of this
    host and has its incoming bit set. *)
Definition dummyCaseAt (h : Host) (ins : Inspection) (d i j : Z) : Prop :=
  let hostID := gridRowID h (ownVirtual h d) * numColumnHosts h + i in
  d ∈ decomposition h /\ i ∈ columns h /\
  virtual2RealHost h hostID <> id h /\
  0 <= j /\ outDegrees ins d i !! Z.to_nat j = Some 0 /\
  dummyOutgoingCase h ins i ((rangeOf h hostID).1 + j) = true.

(** The shape of a turn of each step: the local index is left alone, or a
    node is created after a change that touches neither the vectors nor
    the map. *)
Inductive turn (h : Host) : Local -> Local -> Prop :=
  | turn_skip l : turn h l l
  | turn_create (g : Local -> Local) gid l l' :
      (forall a, localToGlobalVector (g a) = localToGlobalVector a /\
                 globalToLocalMap (g a) = globalToLocalMap a /\
                 numNodes (g a) = numNodes a /\
                 (warnings a <= warnings (g a))%nat /\
                 (columnBlocked (tp h) = false ->
                  dummyOutgoingNodes (g a) = dummyOutgoingNodes a)) ->
      createNode (ndebug h) gid (g l) = Ok l' -> turn h l l'.

(** Properties of the local index that survive every turn. *)
Definition stable (h : Host) (P : Local -> Prop) : Prop :=
  forall l l', turn h l l' -> P l -> P l'.

(** Well-formed host: the grid is the one [factorizeHosts] computes for the
    host count (the columns divide it, rows times columns is the number of
    virtual hosts), the host is one of the hosts, and [gid2host] holds one
    range per virtual host, the ranges covering [0, numGlobalNodes), which
    fits the 32-bit local ids. *)
Record wfHost (h : Host) : Prop := {
  wf_id : 0 <= id h < numHosts h;
  wf_factor : 1 <= DecomposeFactor (tp h);
  wf_columns : 1 <= numColumnHosts h;
  wf_divides : (numColumnHosts h | numHosts h);
  wf_grid : numRowHosts h * numColumnHosts h
            = numHosts h * DecomposeFactor (tp h);
  wf_virtual : numVirtualHosts h = numHosts h * DecomposeFactor (tp h);
  wf_count : Z.of_nat (length (gid2host h)) = numVirtualHosts h;
  wf_cover : contiguousCover (gid2host h) (numGlobalNodes h);
  wf_nodes : numGlobalNodes h < 2 ^ 32
}.

(** First virtual host of the grid row of the [d]-th own virtual host. *)
Definition leaderOf (h : Host) (d : Z) : Z :=
  gridRowID h (ownVirtual h d) * numColumnHosts h.

(** The degree vectors held after the exchange have one entry per source of
    the virtual host they describe. *)
Definition degreesFit (h : Host) (ins : Inspection) : Prop :=
  forall d i, d ∈ decomposition h -> i ∈ columns h ->
    length (outDegrees ins d i) = length (sourcesOf h (leaderOf h d + i)).

(** The virtual hosts whose ranges the three steps of the layout walk, in
    the order of the walk. *)
Definition mastersVisited (h : Host) : list Z :=
  map (ownVirtual h) (decomposition h).

Definition outgoingVisited (h : Host) : list Z :=
  flat_map (fun d =>
    flat_map (fun i =>
      let hostID := leaderOf h d + i in
      if virtual2RealHost h hostID =? id h then [] else [hostID])
      (columns h))
    (decomposition h).

Definition incomingVisited (h : Host) : list Z :=
  flat_map (fun i =>
    let v := incomingPeer h i in
    if virtual2RealHost h v =? id h then []
    else if columnBlocked (tp h) && inOwnRows h v then []
    else [v])
    (seqZ 0 (numRowHosts h)).

Definition visited (h : Host) : list Z :=
  mastersVisited h ++ outgoingVisited h ++ incomingVisited h.

Definition nodesOf (h : Host) (vs : list Z) : list Z :=
  flat_map (sourcesOf h) vs.

(** [l'] is [l] with some of the nodes [srcs] appended, in their order. *)
Definition appends (srcs : list Z) (l l' : Local) : Prop :=
  exists part,
    localToGlobalVector l' = localToGlobalVector l ++ part /\
    part `sublist_of` srcs.

(** [numNodes] counts the entries of [localToGlobalVector], in 32 bits. *)
Definition counted (l : Local) : Prop :=
  numNodes l = u32 (Z.of_nat (length (localToGlobalVector l))).

(** The degree table has one row per own virtual host and one vector per
    column. *)
Definition shaped (h : Host) (no : list (list (list Z))) : Prop :=
  length no = Z.to_nat (DecomposeFactor (tp h)) /\
  forall d, 0 <= d < DecomposeFactor (tp h) ->
    length (at_ [] no d) = Z.to_nat (numColumnHosts h).

(** The buffer host [p] addresses to the member of its row in column [c]. *)
Definition bufferFor (h : Host) (g : Graph) (c p : Z) : MetaBuffer :=
  let hp := onHost h p in
  {| sender := p;
     target := gridRowID hp p * numColumnHosts hp + c;
     degrees := map (fun d => at_ [] (at_ [] (numOutgoingEdges (inspect hp g)) d) c)
                    (decomposition hp);
     bits := at_ [] (hasIncomingEdge (inspect hp g)) c |}.

(** The row peers of a host: same grid row, another host. *)
Definition rowPeer (h : Host) (p : Z) : Prop :=
  gridRowID h p = gridRowID h (id h) /\ p <> id h.

#[global] Instance rowPeer_dec h p : Decision (rowPeer h p).
Proof. unfold rowPeer. apply _. Defined.

(** ** Vocabulary of the further properties *)

(** The locations with source and destination exchanged. *)
Definition swapWrite (w : WriteLocation) : WriteLocation :=
  match w with
  | writeSource => writeDestination
  | writeDestination => writeSource
  | writeAny => writeAny
  end.
Definition swapRead (r : ReadLocation) : ReadLocation :=
  match r with
  | readSource => readDestination
  | readDestination => readSource
  | readAny => readAny
  end.

(** The ways a node enters the local index: a source with its recorded
    edges, a dummy outgoing node of the checkerboard, the same case outside
    the checkerboard (warned about), a destination without local edges. *)
Inductive Placement := withEdges (n : Z) | asDummy | asWarned | plain.

Definition prepare (k : Placement) (l : Local) : Local :=
  match k with
  | withEdges n => addEdges n l
  | asDummy => countDummy l
  | asWarned => gWarn l
  | plain => l
  end.

(** The local index [createNode] leaves behind when its assertion holds. *)
Definition place (l : Local) (x : Z * Placement) : Local :=
  let l0 := prepare x.2 l in
  {| localToGlobalVector := localToGlobalVector l0 ++ [x.1];
     globalToLocalMap := <[x.1 := numNodes l0]> (globalToLocalMap l0);
     numNodes := u32 (numNodes l0 + 1);
     numEdges := numEdges l0;
     dummyOutgoingNodes := dummyOutgoingNodes l0; numOwned := numOwned l0;
     numNodesWithEdges := numNodesWithEdges l0;
     prefixSumOfEdges := prefixSumOfEdges l0 ++ [numEdges l0];
     warnings := warnings l0 |}.

(** The nodes each step of the layout creates, in order. *)
Definition mastersPlan (h : Host) (ins : Inspection) : list (Z * Placement) :=
  flat_map (fun d =>
    map (fun x : Z * Z => (x.1, withEdges x.2))
        (offsets (rangeOf h (ownVirtual h d)).1
                 (outDegrees ins d (gridColumnID h (id h)))))
    (decomposition h).

Definition outgoingChoice (h : Host) (ins : Inspection) (i : Z) (x : Z * Z)
  : list (Z * Placement) :=
  if 0 <? x.2 then [(x.1, withEdges x.2)]
  else if dummyOutgoingCase h ins i x.1 then
    [(x.1, if columnBlocked (tp h) then asDummy else asWarned)]
  else [].

Definition outgoingPlan (h : Host) (ins : Inspection) : list (Z * Placement) :=
  flat_map (fun d =>
    flat_map (fun i =>
      let hostID := leaderOf h d + i in
      if virtual2RealHost h hostID =? id h then []
      else flat_map (outgoingChoice h ins i)
                    (offsets (rangeOf h hostID).1 (outDegrees ins d i)))
      (columns h))
    (decomposition h).

Definition incomingPlan (h : Host) (ins : Inspection) : list (Z * Placement) :=
  flat_map (fun i =>
    let v := incomingPeer h i in
    if virtual2RealHost h v =? id h then []
    else if columnBlocked (tp h) && inOwnRows h v then []
    else flat_map (fun dst => if incomingBit h ins dst then [(dst, plain)]
                              else [])
                  (sourcesOf h v))
    (seqZ 0 (numRowHosts h)).

(** The map sends every node of the vector to its position, and nothing
    else. *)
Definition indexed (l : Local) : Prop :=
  forall gid k, globalToLocalMap l !! gid = Some k <->
                0 <= k /\ localToGlobalVector l !! Z.to_nat k = Some gid.

(** The same host in a build with NDEBUG. *)
Definition release (h : Host) : Host :=
  {| tp := tp h; ndebug := true; id := id h; numHosts := numHosts h;
     numGlobalNodes := numGlobalNodes h; numRowHosts := numRowHosts h;
     numColumnHosts := numColumnHosts h; numVirtualHosts := numVirtualHosts h;
     gid2host := gid2host h; transposed := transposed h;
     hasBVFlag := hasBVFlag h |}.

(** None of the nodes of the plan is in the map yet, and none occurs twice. *)
Definition fresh (l : Local) (plan : list (Z * Placement)) : Prop :=
  NoDup plan.*1 /\
  forall gid, gid ∈ plan.*1 -> globalToLocalMap l !! gid = None.

Definition layoutPlan (h : Host) (ins : Inspection) : list (Z * Placement) :=
  mastersPlan h ins ++ outgoingPlan h ins ++ incomingPlan h ins.

(** The nodes this host owns, range after range. *)
Definition ownedNodes (h : Host) : list Z :=
  flat_map (fun d => sourcesOf h (ownVirtual h d)) (decomposition h).


(** ** Scenarios *)

(** Tiny chain on one host. *)
Definition chain4 : Graph := [[1]; [2]; [3]; []].

(** One host, decompose factor 2, two nodes per virtual host. *)
Definition tpD2 : TParams :=
  {| columnBlocked := false; moreColumnHosts := false; DecomposeFactor := 2 |}.
Definition fD2 : Factors :=
  {| f_numRowHosts := 2; f_numColumnHosts := 1; f_numVirtualHosts := 2 |}.
Definition rangesD2 : list (Z * Z) := [(0, 2); (2, 4)].
Definition hostD2 : Host :=
  mkHost tpD2 false 0 1 [[]; []; []; []] rangesD2 fD2.

(** Four hosts, checkerboard, decompose factor 2, one node per virtual host
    and the single edge 0 -> 6. *)
Definition tpCB2 : TParams :=
  {| columnBlocked := true; moreColumnHosts := false; DecomposeFactor := 2 |}.
Definition edge06 : Graph := [[6]; []; []; []; []; []; []; []].
Definition ranges8 : list (Z * Z) :=
  [(0, 1); (1, 2); (2, 3); (3, 4); (4, 5); (5, 6); (6, 7); (7, 8)].

(** Host 0 of a 2 x 2 grid, not checkerboard, one node per host. *)
Definition tpPlain : TParams :=
  {| columnBlocked := false; moreColumnHosts := false; DecomposeFactor := 1 |}.
Definition f2x2 : Factors :=
  {| f_numRowHosts := 2; f_numColumnHosts := 2; f_numVirtualHosts := 4 |}.
Definition ranges4 : list (Z * Z) := [(0, 1); (1, 2); (2, 3); (3, 4)].
Definition host2x2 (nd : bool) : Host :=
  mkHost tpPlain nd 0 4 [[]; []; []; []] ranges4 f2x2.

(** The mirror lists of the complete digraph on three nodes spread over a
    2 x 2 grid (node [k] on host [k], host 3 empty), and the tables of host
    [x] once the masters were exchanged. *)
Definition k3Mirrors (x : Z) : list (list Z) :=
  if (x =? 0) || (x =? 3) then [[]; [1]; [2]; []] else [[0]; []; []; []].
Definition k3Tables (x : Z) : ReplicaTables :=
  {| mirrorNodes := k3Mirrors x; masterNodes := exchangeMasters 4 k3Mirrors x |}.

(** The complete digraph on three nodes, one node on each of the first
    three hosts of the 2 x 2 grid. *)
Definition completeK3 : Graph := [[1; 2]; [0; 2]; [0; 1]].
Definition rangesK3 : list (Z * Z) := [(0, 1); (1, 2); (2, 3); (3, 3)].

(** Two disconnected edges on four nodes, and two self-loops. *)
Definition twoEdges : Graph := [[1]; []; [3]; []].
Definition selfLoops : Graph := [[0]; [1]].
Definition tpChecker : TParams :=
  {| columnBlocked := true; moreColumnHosts := false; DecomposeFactor := 1 |}.

(** Host 0 of the 2 x 2 grid that holds the complete digraph on three
    nodes, and a partition with one master between two mirrors. *)
Definition hostK3 : Host := mkHost tpPlain false 0 4 completeK3 rangesK3 f2x2.
Definition tablesFor3 : ReplicaTables :=
  {| mirrorNodes := [[]; []; []; [2]]; masterNodes := [[]; []; []; []] |}.
Definition oneMaster : Partition :=
  {| env := hostK3;
     loc := {| localToGlobalVector := [1; 0; 2];
               globalToLocalMap := {[ 1 := 0; 0 := 1; 2 := 2 ]};
               numNodes := 3; numEdges := 0; dummyOutgoingNodes := 0;
               numOwned := 1; numNodesWithEdges := 3;
               prefixSumOfEdges := [0; 0; 0]; warnings := 0 |};
     graph := allocateFrom 3 0; beginMaster := 1;
     tables := tablesFor3 |}.
Definition tpSwapped : TParams :=
  {| columnBlocked := false; moreColumnHosts := true; DecomposeFactor := 1 |}.
Definition f1x1 : Factors :=
  {| f_numRowHosts := 1; f_numColumnHosts := 1; f_numVirtualHosts := 1 |}.

(** * Verification *)

(** ** Grid *)

Lemma u32_small x : 0 <= x < 2 ^ 32 -> u32 x = x.
Proof. intros. unfold u32. apply Z.mod_small. lia. Qed.

Lemma u64_small x : 0 <= x < 2 ^ 64 -> u64 x = x.
Proof. intros. unfold u64. apply Z.mod_small. lia. Qed.

Lemma decrementToDivisor_spec H n :
  1 <= H ->
  exists c, decrementToDivisor H (S n) = Ok c /\
            1 <= c <= Z.of_nat (S n) /\ (c | H) /\
            forall c', c < c' <= Z.of_nat (S n) -> ~ (c' | H).
Proof.
  intros HH. induction n as [|n IH].
  - exists 1. cbn [decrementToDivisor].
    change (Z.of_nat 1) with 1. rewrite Z.mod_1_r. cbn.
    repeat split; try lia. exists H. lia.
  - remember (S n) as m. cbn [decrementToDivisor].
    destruct (H mod Z.of_nat (S m) =? 0) eqn:E.
    + exists (Z.of_nat (S m)). repeat split; try lia.
      apply Z.eqb_eq in E. apply Z.mod_divide in E; [done | lia].
    + destruct IH as (c & Hc & Hr & Hd & Hmax). exists c.
      repeat split; try lia; try done.
      intros c' Hc'. destruct (decide (c' = Z.of_nat (S m))) as [->|Hne].
      * intros Hdiv. apply Z.eqb_neq in E. apply E.
        apply Z.mod_divide; [lia | done].
      * apply Hmax. lia.
Qed.

Lemma sqrt_ge_1 H : 1 <= H -> 1 <= Z.sqrt H.
Proof. intros. apply Z.sqrt_le_square; lia. Qed.

Lemma divisor_le_quotient H c :
  1 <= H -> 1 <= c -> c <= Z.sqrt H -> c <= H / c.
Proof.
  intros HH Hc Hs. apply Z.div_le_lower_bound; [lia|].
  pose proof (Z.sqrt_spec H ltac:(lia)) as [Hlo _]. nia.
Qed.

Lemma factorPair_spec nd H :
  1 <= H ->
  exists r c, factorPair nd H = Ok (r, c) /\ largestDivisorUpToSqrt H c /\
              r = H / c /\ c <= r /\ r * c = H.
Proof.
  intros HH. pose proof (sqrt_ge_1 H HH) as Hs.
  destruct (Z.to_nat (Z.sqrt H)) as [|n] eqn:En; [lia|].
  destruct (decrementToDivisor_spec H n HH) as (c & Hc & Hr & Hd & Hmax).
  assert (Hle : c <= H / c) by (apply divisor_le_quotient; lia).
  exists (H / c), c. unfold factorPair. rewrite En, Hc. cbn.
  replace (c <=? H / c) with true by (symmetry; apply Z.leb_le; lia).
  unfold assertR. split; [by destruct nd|]. split; [|split; [done|split; [done|]]].
  - repeat split; try lia; try done.
    intros c' Hpos Hdiv Hle'. destruct (decide (c' <= c)); [done|].
    exfalso. apply (Hmax c'); [lia | done].
  - destruct Hd as [k ->]. rewrite Z.div_mul by lia. lia.
Qed.

(** C7. For every host count H >= 1 and decompose factor D >= 1 (with H * D
    representable as an [unsigned], as [numVirtualHosts] has to be),
    [factorizeHosts] succeeds; the column count found before the orientation
    swap is the largest divisor of H not exceeding floor(sqrt H), the row
    count is H divided by it and is at least the column count; the two are
    swapped when [moreColumnHosts] is set, then the row count is multiplied
    by D, and on exit rows * columns = H * D = numVirtualHosts. *)
Theorem factorizeHosts_correct (t : TParams) (nd : bool) (H : Z) :
  1 <= H -> 1 <= DecomposeFactor t -> H * DecomposeFactor t < 2 ^ 32 ->
  exists r c f,
    factorPair nd H = Ok (r, c) /\
    largestDivisorUpToSqrt H c /\ r = H / c /\ c <= r /\
    factorizeHosts t nd H = Ok f /\
    f_numColumnHosts f = (if moreColumnHosts t then r else c) /\
    f_numRowHosts f =
      (if moreColumnHosts t then c else r) * DecomposeFactor t /\
    f_numVirtualHosts f = H * DecomposeFactor t /\
    f_numRowHosts f * f_numColumnHosts f = H * DecomposeFactor t.
Proof.
  intros HH HD Hfit.
  destruct (factorPair_spec nd H HH) as (r & c & Hp & Hl & Hr & Hle & Hrc).
  assert (Hc : 0 < c) by apply Hl.
  assert (0 < r) by lia.
  assert (r <= H /\ c <= H) as [HrH HcH] by nia.
  unfold factorizeHosts. rewrite Hp. cbn.
  destruct (moreColumnHosts t); cbn;
    eexists r, c, _; (split; [done|]); (split; [done|]); (split; [done|]);
    (split; [done|]); (split; [reflexivity|]); cbn;
    rewrite !u32_small by nia; repeat split; nia.
Qed.

Lemma factorizeHosts_correct_witness :
  exists r c f,
    factorPair false 12 = Ok (r, c) /\
    largestDivisorUpToSqrt 12 c /\ r = 12 / c /\ c <= r /\
    factorizeHosts {| columnBlocked := false; moreColumnHosts := true;
                      DecomposeFactor := 2 |} false 12 = Ok f /\
    f_numColumnHosts f = r /\ f_numRowHosts f = c * 2 /\
    f_numVirtualHosts f = 12 * 2 /\
    f_numRowHosts f * f_numColumnHosts f = 12 * 2.
Proof.
  apply (factorizeHosts_correct
           {| columnBlocked := false; moreColumnHosts := true;
              DecomposeFactor := 2 |} false 12); cbn; lia.
Defined.

(** ** Sync policy *)

Lemma differs_false a b : differs a b = false <-> a = b.
Proof.
  unfold differs. destruct (Z.eqb_spec a b); cbn; split; congruence.
Qed.

Lemma anyArm_false h p : anyArm h p = Ok false <-> sameRow h p \/ sameColumn h p.
Proof.
  unfold anyArm, sameRow, sameColumn, assertR.
  destruct (Z.eqb_spec (gridRowID h (id h)) (gridRowID h p)),
           (Z.eqb_spec (gridColumnID h (id h)) (gridColumnID h p)),
           (ndebug h); cbn; split; intros; try tauto; try discriminate;
    try (destruct H; contradiction).
Qed.

Lemma anyArm_sym h x y : anyArm (onHost h x) y = anyArm (onHost h y) x.
Proof.
  unfold anyArm, gridRowID, gridColumnID; cbn.
  rewrite (Z.eqb_sym (x / _)), (Z.eqb_sym (x mod _)). reflexivity.
Qed.

Lemma isNotCommunicationPartner_sym h x y s w r :
  isNotCommunicationPartner (onHost h x) y s w r =
  isNotCommunicationPartner (onHost h y) x s w r.
Proof.
  unfold isNotCommunicationPartner, differs, flagged, gridRowID, gridColumnID.
  cbn. rewrite (Z.eqb_sym (x / _)), (Z.eqb_sym (x mod _)).
  pose proof (anyArm_sym h x y) as Ha.
  destruct (transposed h), s, w, r; cbn; rewrite ?Ha; reflexivity.
Qed.

Lemma sharedPolicy_sym h x y (lx ly : list (list Z)) s w r :
  length <$> lx !! Z.to_nat y = length <$> ly !! Z.to_nat x ->
  sharedPolicy (onHost h x) lx y s w r = sharedPolicy (onHost h y) ly x s w r.
Proof.
  intros E. unfold sharedPolicy.
  destruct (lx !! Z.to_nat y) as [l1|], (ly !! Z.to_nat x) as [l2|];
    cbn in E; try done.
  injection E as ->. destruct (0 <? _); [|done]. cbn.
  destruct (columnBlocked (tp h)); [done|].
  apply isNotCommunicationPartner_sym.
Qed.

(** C3. SyncPolicy symmetry.  Let X and Y be two hosts of one run (same
    grid, same template parameters, same orientation) whose replica tables
    are reciprocal, as the exchange of the base class leaves them.  Then for
    every sync type, write location and read location, [nothingToSend] of Y
    evaluated on X returns true exactly when [nothingToRecv] of X evaluated
    on Y returns true; the two calls even give the same outcome. *)
Theorem nothingToSend_iff_nothingToRecv (h : Host) (x y : Z)
    (tx ty : ReplicaTables) (s : SyncType) (w : WriteLocation)
    (r : ReadLocation) :
  reciprocal x y tx ty ->
  nothingToSend (onHost h x) tx y s w r = nothingToRecv (onHost h y) ty x s w r
  /\ (ret (nothingToSend (onHost h x) tx y s w r) = Ok true <->
      ret (nothingToRecv (onHost h y) ty x s w r) = Ok true).
Proof.
  intros [Hmaster Hmirror].
  assert (E : nothingToSend (onHost h x) tx y s w r =
              nothingToRecv (onHost h y) ty x s w r).
  { unfold nothingToSend, nothingToRecv.
    destruct s; apply sharedPolicy_sym; by symmetry. }
  split; [exact E | by rewrite E].
Qed.

(** C4. The sync-policy table.  On a host that is not transposed and not
    column-blocked, with a nonempty shared-node list for the peer p,
    [nothingToSend] returns false exactly when the table asks for a send:
    same row for Source, same column for Destination, same row or same
    column for Any, the location being the write location under Reduce and
    the read location under Broadcast. *)
Theorem nothingToSend_table (h : Host) (t : ReplicaTables) (p : Z)
    (s : SyncType) (w : WriteLocation) (r : ReadLocation) (l : list Z) :
  transposed h = false -> columnBlocked (tp h) = false ->
  sendList s t !! Z.to_nat p = Some l -> l <> [] ->
  ret (nothingToSend h t p s w r) = Ok false <-> sendNeeded h p (keyedOn s w r).
Proof.
  intros Ht Hc Hl Hne. unfold nothingToSend, sharedPolicy.
  replace (match s with syncReduce => mirrorNodes t
                   | syncBroadcast => masterNodes t end) with (sendList s t)
    by (by destruct s).
  rewrite Hl. destruct l as [|a l]; [done|]. cbn [length].
  replace (0 <? Z.of_nat (S (length l))) with true
    by (symmetry; apply Z.ltb_lt; lia).
  rewrite Hc. unfold isNotCommunicationPartner. rewrite Ht.
  destruct s, w, r; cbn [keyedOn sendNeeded ret answer flagged];
    unfold sameRow, sameColumn;
    rewrite ?anyArm_false; unfold sameRow, sameColumn;
    try (split; [intros [= E%differs_false]; exact E
                | intros E; f_equal; by apply differs_false]);
    done.
Qed.

(** C10. An empty shared-node list means there is nothing to exchange:
    whatever the grid position, [columnBlocked], [moreColumnHosts] and the
    orientation, [nothingToSend] returns true when the list it consults for
    the peer is empty, and so does [nothingToRecv]. *)
Theorem empty_shared_list_nothing (h : Host) (t : ReplicaTables) (p : Z)
    (s : SyncType) (w : WriteLocation) (r : ReadLocation) :
  (sendList s t !! Z.to_nat p = Some [] ->
   ret (nothingToSend h t p s w r) = Ok true) /\
  (recvList s t !! Z.to_nat p = Some [] ->
   ret (nothingToRecv h t p s w r) = Ok true).
Proof.
  unfold nothingToSend, nothingToRecv, sharedPolicy.
  split; intros E; destruct s; cbn in E; rewrite E; reflexivity.
Qed.

Lemma nothingToSend_iff_nothingToRecv_witness :
  reciprocal 0 1 (k3Tables 0) (k3Tables 1) /\
  (nothingToSend (onHost (host2x2 false) 0) (k3Tables 0) 1 syncReduce
     writeSource readAny =
   nothingToRecv (onHost (host2x2 false) 1) (k3Tables 1) 0 syncReduce
     writeSource readAny /\
   (ret (nothingToSend (onHost (host2x2 false) 0) (k3Tables 0) 1 syncReduce
           writeSource readAny) = Ok true <->
    ret (nothingToRecv (onHost (host2x2 false) 1) (k3Tables 1) 0 syncReduce
           writeSource readAny) = Ok true)).
Proof.
  assert (H : reciprocal 0 1 (k3Tables 0) (k3Tables 1))
    by (split; reflexivity).
  split; [exact H|].
  exact (nothingToSend_iff_nothingToRecv (host2x2 false) 0 1 (k3Tables 0)
           (k3Tables 1) syncReduce writeSource readAny H).
Defined.

Lemma nothingToSend_table_witness :
  ret (nothingToSend (host2x2 false) (k3Tables 0) 1 syncReduce writeSource
         readAny) = Ok false <->
  sendNeeded (host2x2 false) 1 Source.
Proof.
  apply (nothingToSend_table (host2x2 false) (k3Tables 0) 1 syncReduce
           writeSource readAny [1]);
    [reflexivity | reflexivity | reflexivity | discriminate].
Defined.

Lemma empty_shared_list_nothing_witness :
  ret (nothingToSend (host2x2 false) (k3Tables 0) 3 syncReduce writeAny
         readAny) = Ok true /\
  ret (nothingToRecv (host2x2 false) (k3Tables 0) 3 syncReduce writeAny
         readAny) = Ok true.
Proof.
  destruct (empty_shared_list_nothing (host2x2 false) (k3Tables 0) 3
              syncReduce writeAny readAny) as [Hs Hr].
  split; [apply Hs | apply Hr]; reflexivity.
Defined.

(** ** Persistence *)

(** C9. Reading back what [boostSerializeLocalGraph] wrote restores
    [numNodes], [numRowHosts], [numColumnHosts], [localToGlobalVector] and
    [globalToLocalMap] of the partition that was written, whatever the
    receiving object held before, and leaves the archive at the position
    just after the five values. *)
Theorem serialize_roundtrip (p fresh : Partition) (rest : Archive) :
  exists q,
    boostDeSerializeLocalGraph fresh (boostSerializeLocalGraph p [] ++ rest)
      = Ok (q, rest) /\
    numNodes (loc q) = numNodes (loc p) /\
    numRowHosts (env q) = numRowHosts (env p) /\
    numColumnHosts (env q) = numColumnHosts (env p) /\
    localToGlobalVector (loc q) = localToGlobalVector (loc p) /\
    globalToLocalMap (loc q) = globalToLocalMap (loc p).
Proof.
  eexists. split; [reflexivity|]. cbn. repeat split.
Qed.

(** ** Scenarios *)

(** C8, at the input where the code leaves the specification.  One host
    with decompose factor 2 and the ranges [0,2) and [2,4): both ranges lie
    in column 0, so the column index of a node ought to be its offset in
    0,1,2,3; [getColumnIndex] stops at block [1 mod 1 = 0] and answers 2 for
    both nodes of the second range. *)
Theorem getColumnIndex_decomposed :
  factorizeHosts tpD2 false 1 = Ok fD2 /\
  contiguousCover rangesD2 4 /\
  getColumnIndex hostD2 3 = 2 /\ columnOffset hostD2 3 = Some 3 /\
  getColumnIndex hostD2 2 = 2 /\ columnOffset hostD2 2 = Some 2.
Proof.
  split; [reflexivity|]. split; [cbn; lia|].
  repeat split; vm_compute; reflexivity.
Qed.

(** C1, at the input where the code leaves the specification.  Four hosts,
    checkerboard, decompose factor 2, one node per virtual host, and the
    single edge 0 -> 6.  Host 0 reads the edge and has to construct it
    itself, but its layout never visited the range of virtual host 6, so
    [G2L 6] stops the build (on the assertion, or on the exception of [at]
    under NDEBUG); no host constructs the edge. *)
Theorem checkerboard_decomposed_loses_edge (nd : bool) :
  contiguousCover ranges8 8 /\
  globalEdges edge06 = [(0, 6)] /\
  construct tpCB2 nd 0 4 edge06 ranges8 false
    = Abort (if nd then OutOfRange else AssertionFailed) /\
  map (fun x => constructedBy (construct tpCB2 nd x 4 edge06 ranges8 false))
      (seqZ 0 4) = [[]; []; []; []].
Proof.
  split; [cbn; lia|].
  destruct nd; repeat split; vm_compute; reflexivity.
Qed.

(** C6, the claim as stated: the prefix-sum vector of the tiny chain is not
    the five-entry array [0,1,2,3,3] and its length is not numNodes + 1. *)
Lemma tiny_chain_prefix_has_no_leading_zero :
  exists p, construct tpPlain false 0 1 chain4 [(0, 4)] false = Ok p /\
            prefixSumOfEdges (loc p) <> [0; 1; 2; 3; 3] /\
            Z.of_nat (length (prefixSumOfEdges (loc p))) <> numNodes (loc p) + 1.
Proof.
  eexists. split; [vm_compute; reflexivity|]. cbn. split; [discriminate|lia].
Qed.

(** C6, amended.  On the chain 0 -> 1 -> 2 -> 3 with one host and decompose
    factor 1 (the only contiguous cover is then the range [0,4)), whatever
    the other template parameters and the build, construction succeeds with
    numNodes = 4, numOwned = 4, numEdges = 3 and every mirrorNodes list
    empty; the prefix-sum vector holds the end offset of each node,
    [1,2,3,3]: its length is numNodes, its last entry is numEdges, and it is
    the array [0,1,2,3,3] without the leading 0. *)
Theorem tiny_chain (t : TParams) (nd transpose : bool) (ranges : list (Z * Z)) :
  DecomposeFactor t = 1 -> length ranges = 1%nat -> contiguousCover ranges 4 ->
  exists p, construct t nd 0 1 chain4 ranges transpose = Ok p /\
            numNodes (loc p) = 4 /\ numOwned (loc p) = 4 /\
            numEdges (loc p) = 3 /\
            prefixSumOfEdges (loc p) = [1; 2; 3; 3] /\
            Z.of_nat (length (prefixSumOfEdges (loc p))) = numNodes (loc p) /\
            last (prefixSumOfEdges (loc p)) = Some (numEdges (loc p)) /\
            0 :: prefixSumOfEdges (loc p) = [0; 1; 2; 3; 3] /\
            mirrorNodes (tables p) = [[]].
Proof.
  intros HD Hlen Hcov.
  destruct ranges as [|[s e] [|? ?]]; try discriminate.
  cbn in Hcov. destruct Hcov as (-> & _ & ->).
  destruct t as [cb more D]. cbn in HD. subst D.
  destruct cb, more, nd, transpose;
    (eexists; split; [vm_compute; reflexivity|]); cbn; repeat split.
Qed.

Lemma tiny_chain_witness :
  exists p, construct tpPlain false 0 1 chain4 [(0, 4)] false = Ok p /\
            numNodes (loc p) = 4 /\ numOwned (loc p) = 4 /\
            numEdges (loc p) = 3 /\
            prefixSumOfEdges (loc p) = [1; 2; 3; 3] /\
            Z.of_nat (length (prefixSumOfEdges (loc p))) = numNodes (loc p) /\
            last (prefixSumOfEdges (loc p)) = Some (numEdges (loc p)) /\
            0 :: prefixSumOfEdges (loc p) = [0; 1; 2; 3; 3] /\
            mirrorNodes (tables p) = [[]].
Proof.
  apply (tiny_chain tpPlain false false [(0, 4)]);
    [reflexivity | reflexivity | cbn; lia].
Defined.

(** ** Loops *)

Section Loops.
Context {A S : Type}.
Implicit Types (body : A -> S -> Result S) (xs : list A).

(** A property kept by every turn is kept by the loop. *)
Lemma forM_preserves (P : S -> Prop) body xs s s' :
  (forall x a b, x ∈ xs -> body x a = Ok b -> P a -> P b) ->
  forM xs body s = Ok s' -> P s -> P s'.
Proof.
  revert s. induction xs as [|x xs IH]; intros s Hstep Hrun Hs; cbn in Hrun.
  - by injection Hrun as <-.
  - destruct (body x s) as [a|] eqn:E; [|done].
    apply (IH a); [| done |].
    + intros y a' b Hy. apply Hstep. by right.
    + apply (Hstep x s a); [by left | done | done].
Qed.

(** A property established by the turn [x] and kept by the others holds
    after the loop. *)
Lemma forM_reaches (P : S -> Prop) body xs x s s' :
  x ∈ xs ->
  (forall y a b, body y a = Ok b -> P a -> P b) ->
  (forall a b, body x a = Ok b -> P b) ->
  forM xs body s = Ok s' -> P s'.
Proof.
  intros Hx Hkeep Hest. revert s.
  induction xs as [|y xs IH]; intros s Hrun; [by apply elem_of_nil in Hx|].
  cbn in Hrun. destruct (body y s) as [a|] eqn:E; [|done].
  apply elem_of_cons in Hx as [->|Hx].
  - apply (forM_preserves P body xs a s'); eauto.
  - by apply (IH Hx a).
Qed.

(** A loop whose turns never stop does not stop. *)
Lemma forM_total body xs s :
  (forall x a, x ∈ xs -> exists b, body x a = Ok b) ->
  exists s', forM xs body s = Ok s'.
Proof.
  revert s. induction xs as [|x xs IH]; intros s Hstep; cbn; [by eexists|].
  destruct (Hstep x s) as [a ->]; [by left|].
  apply IH. intros y b Hy. apply Hstep. by right.
Qed.


End Loops.

(** ** Layout: what a turn does to the local index *)

Lemma createNode_Ok nd gid l l' :
  createNode nd gid l = Ok l' ->
  localToGlobalVector l' = localToGlobalVector l ++ [gid] /\
  globalToLocalMap l' = <[gid := numNodes l]> (globalToLocalMap l) /\
  numNodes l' = u32 (numNodes l + 1) /\
  warnings l' = warnings l /\
  dummyOutgoingNodes l' = dummyOutgoingNodes l.
Proof.
  unfold createNode, assertR. destruct nd; cbn.
  - intros [= <-]. done.
  - destruct (bool_decide _); cbn; [|done]. intros [= <-]. done.
Qed.

Lemma createNode_release gid l : exists l', createNode true gid l = Ok l'.
Proof. unfold createNode, assertR. cbn. by eexists. Qed.


(** The four ways the body of the [j] loop of step 2 ends well. *)
Lemma visitOutgoing_Ok h ins i src n l l' :
  visitOutgoing h ins i src n l = Ok l' ->
  l' = l \/
  createNode (ndebug h) src (addEdges n l) = Ok l' \/
  (columnBlocked (tp h) = true /\
   createNode (ndebug h) src (countDummy l) = Ok l') \/
  (columnBlocked (tp h) = false /\ ndebug h = true /\
   dummyOutgoingCase h ins i src = true /\
   createNode (ndebug h) src (gWarn l) = Ok l').
Proof.
  unfold visitOutgoing. destruct (0 <? n); [by auto|].
  destruct (dummyOutgoingCase h ins i src); [|intros [= <-]; by auto].
  destruct (columnBlocked (tp h)); [by auto|].
  unfold assertR. destruct (ndebug h); cbn; [by auto 10 | done].
Qed.


Lemma visitOutgoing_release h ins i src n l :
  ndebug h = true -> exists l', visitOutgoing h ins i src n l = Ok l'.
Proof.
  intros Hnd. unfold visitOutgoing. rewrite Hnd.
  destruct (0 <? n); [apply createNode_release|].
  destruct (dummyOutgoingCase h ins i src); [|by eexists].
  destruct (columnBlocked (tp h)); apply createNode_release.
Qed.

Lemma visitOutgoing_turn h ins i src n l l' :
  visitOutgoing h ins i src n l = Ok l' -> turn h l l'.
Proof.
  intros [->|[H|[[Hcb H]|(Hcb & _ & _ & H)]]]%visitOutgoing_Ok.
  - constructor.
  - by apply (turn_create h (addEdges n) src).
  - apply (turn_create h countDummy src); [|done]. intros a. cbn.
    repeat split; try lia. congruence.
  - apply (turn_create h gWarn src); [|done]. intros a. cbn.
    repeat split; lia.
Qed.

Lemma stable_member h gid : stable h (fun l => gid ∈ localToGlobalVector l).
Proof.
  intros l l' Ht Hl. destruct Ht as [|g x l l' Hg Hc]; [done|].
  apply createNode_Ok in Hc as (-> & _). destruct (Hg l) as (-> & _).
  apply elem_of_app. by left.
Qed.

Lemma stable_warned h : stable h (fun l => (0 < warnings l)%nat).
Proof.
  intros l l' Ht Hl. destruct Ht as [|g x l l' Hg Hc]; [done|].
  apply createNode_Ok in Hc as (_ & _ & _ & -> & _).
  destruct (Hg l) as (_ & _ & _ & Hw & _). lia.
Qed.

Lemma stable_no_dummy h :
  columnBlocked (tp h) = false -> stable h (fun l => dummyOutgoingNodes l = 0).
Proof.
  intros Hcb l l' Ht Hl. destruct Ht as [|g x l l' Hg Hc]; [done|].
  apply createNode_Ok in Hc as (_ & _ & _ & _ & ->).
  destruct (Hg l) as (_ & _ & _ & _ & Hd). by rewrite Hd.
Qed.

Lemma stable_and h P Q : stable h P -> stable h Q -> stable h (fun l => P l /\ Q l).
Proof. intros HP HQ l l' Ht [? ?]. split; [by eapply HP | by eapply HQ]. Qed.

(** The three steps are loops of turns. *)
Lemma layoutMasters_stable h ins P l l' :
  stable h P -> layoutMasters h ins l = Ok l' -> P l -> P l'.
Proof.
  intros HP. unfold layoutMasters. apply forM_preserves.
  intros d a b _. apply forM_preserves. intros [src n] a' b' _ Hc.
  apply HP. by apply (turn_create h (addEdges n) src).
Qed.

Lemma layoutOutgoing_stable h ins P l l' :
  stable h P -> layoutOutgoing h ins l = Ok l' -> P l -> P l'.
Proof.
  intros HP. unfold layoutOutgoing. apply forM_preserves.
  intros d a b _. apply forM_preserves. intros i a' b' _.
  destruct (_ =? _); [by intros [= <-]|].
  apply forM_preserves. intros [src n] a'' b'' _ Hv.
  apply HP. by eapply visitOutgoing_turn.
Qed.

Lemma layoutIncoming_stable h ins P l l' :
  stable h P -> layoutIncoming h ins l = Ok l' -> P l -> P l'.
Proof.
  intros HP. unfold layoutIncoming. apply forM_preserves.
  intros i a b _.
  destruct (_ =? _); [by intros [= <-]|].
  destruct (_ && _); [by intros [= <-]|].
  apply forM_preserves. intros dst a' b' _.
  destruct (incomingBit h ins dst); [|by intros [= <-]].
  intros Hc. apply HP. by apply (turn_create h (fun a => a) dst).
Qed.

(** ** The dummy-outgoing case outside checkerboard mode *)



Lemma layoutMasters_release h ins l :
  ndebug h = true -> exists l', layoutMasters h ins l = Ok l'.
Proof.
  intros Hnd. unfold layoutMasters. apply forM_total. intros d a _.
  apply forM_total. intros [src n] a' _. rewrite Hnd. apply createNode_release.
Qed.

Lemma layoutOutgoing_release h ins l :
  ndebug h = true -> exists l', layoutOutgoing h ins l = Ok l'.
Proof.
  intros Hnd. unfold layoutOutgoing. apply forM_total. intros d a _.
  apply forM_total. intros i a' _. destruct (_ =? _); [by eexists|].
  apply forM_total. intros [src n] a'' _. by apply visitOutgoing_release.
Qed.

Lemma layoutIncoming_release h ins l :
  ndebug h = true -> exists l', layoutIncoming h ins l = Ok l'.
Proof.
  intros Hnd. unfold layoutIncoming. apply forM_total. intros i a _.
  destruct (_ =? _); [by eexists|]. destruct (_ && _); [by eexists|].
  apply forM_total. intros dst a' _.
  destruct (incomingBit h ins dst); [|by eexists].
  rewrite Hnd. apply createNode_release.
Qed.

(** The turn of the [j] loop that a [dummyCaseAt] designates. *)
Lemma dummyCaseAt_turn h ins d i j :
  dummyCaseAt h ins d i j ->
  let hostID := gridRowID h (ownVirtual h d) * numColumnHosts h + i in
  ((rangeOf h hostID).1 + j, 0)
    ∈ offsets (rangeOf h hostID).1 (outDegrees ins d i).
Proof.
  intros (_ & _ & _ & Hj & Hlook & _) hostID. unfold offsets.
  apply elem_of_lookup_imap. exists (Z.to_nat j), 0.
  split; [|done]. f_equal. lia.
Qed.


Lemma layoutOutgoing_creates h ins d i j l l' :
  columnBlocked (tp h) = false -> ndebug h = true ->
  dummyCaseAt h ins d i j ->
  layoutOutgoing h ins l = Ok l' ->
  (rangeOf h (gridRowID h (ownVirtual h d) * numColumnHosts h + i)).1 + j
    ∈ localToGlobalVector l' /\ (0 < warnings l')%nat.
Proof.
  intros Hcb Hnd Hcase. pose proof (dummyCaseAt_turn _ _ _ _ _ Hcase) as Hin.
  destruct Hcase as (Hd & Hi & Hreal & Hj & Hlook & Hdummy).
  set (src := (rangeOf h _).1 + j) in *.
  set (P := fun l => src ∈ localToGlobalVector l /\ (0 < warnings l)%nat).
  assert (HP : stable h P)
    by (apply stable_and; [apply stable_member | apply stable_warned]).
  unfold layoutOutgoing.
  assert (Hinner : forall i' (a b : Local),
    forM (offsets (rangeOf h (gridRowID h (ownVirtual h d) * numColumnHosts h + i')).1
                  (outDegrees ins d i'))
         (fun '(src, n) => visitOutgoing h ins i' src n) a = Ok b -> P a -> P b).
  { intros i' a b. apply forM_preserves. intros [s n] a' b' _ Hv.
    apply HP. by eapply visitOutgoing_turn. }
  apply (forM_reaches P _ _ d); [done | |].
  - intros d' a b. apply forM_preserves. intros i' a' b' _.
    destruct (_ =? _); [by intros [= <-]|].
    apply forM_preserves. intros [s n] a'' b'' _ Hv.
    apply HP. by eapply visitOutgoing_turn.
  - intros a b. apply (forM_reaches P _ _ i); [done | |].
    + intros i' a' b'. destruct (_ =? _); [by intros [= <-]|]. apply Hinner.
    + intros a' b'.
      replace (virtual2RealHost h _ =? id h) with false
        by (symmetry; by apply Z.eqb_neq).
      eapply forM_reaches; [exact Hin | |].
      * intros [s n] a'' b'' Hv. apply HP. by eapply visitOutgoing_turn.
      * intros a'' b''. unfold visitOutgoing. cbn [Z.ltb Z.compare].
        fold src. rewrite Hdummy, Hcb, Hnd. cbn. intros [= <-].
        unfold P. cbn. split; [|lia]. apply elem_of_app. right. by apply list_elem_of_singleton.
Qed.


(** ** Layout: the nodes a run appends *)

Lemma u32_u32_add a b : u32 (u32 a + b) = u32 (a + b).
Proof. unfold u32. by rewrite Zplus_mod_idemp_l. Qed.

Lemma stable_counted h : stable h counted.
Proof.
  intros l l' Ht Hl. destruct Ht as [|g x l l' Hg Hc]; [done|].
  unfold counted in *.
  apply createNode_Ok in Hc as (-> & _ & -> & _).
  destruct (Hg l) as (-> & _ & -> & _). rewrite Hl, u32_u32_add.
  rewrite length_app. cbn. f_equal. lia.
Qed.

Lemma appends_refl srcs l : appends srcs l l.
Proof.
  exists []. rewrite app_nil_r. split; [done | apply sublist_nil_l].
Qed.

Lemma appends_trans s1 s2 l1 l2 l3 :
  appends s1 l1 l2 -> appends s2 l2 l3 -> appends (s1 ++ s2) l1 l3.
Proof.
  intros (p1 & E1 & S1) (p2 & E2 & S2). exists (p1 ++ p2).
  split; [by rewrite E2, E1, app_assoc | by apply sublist_app].
Qed.

Lemma appends_weaken s s' l l' :
  s `sublist_of` s' -> appends s l l' -> appends s' l l'.
Proof. intros Hs (p & E & S). exists p. split; [done | by etrans]. Qed.

Lemma createNode_appends nd gid l l' :
  createNode nd gid l = Ok l' -> appends [gid] l l'.
Proof. intros (E & _)%createNode_Ok. by exists [gid]. Qed.

(** A loop appends what its turns append. *)
Lemma forM_appends {A : Type} (f : A -> list Z) body (xs : list A) l l' :
  (forall x a b, x ∈ xs -> body x a = Ok b -> appends (f x) a b) ->
  forM xs body l = Ok l' -> appends (flat_map f xs) l l'.
Proof.
  revert l. induction xs as [|x xs IH]; intros l Hstep Hrun; cbn in *.
  - injection Hrun as <-. apply appends_refl.
  - destruct (body x l) as [a|] eqn:E; [|done].
    apply (appends_trans _ _ l a l').
    + apply (Hstep x); [by left | done].
    + apply IH; [|done]. intros y a' b Hy. apply Hstep. by right.
Qed.

Lemma offsets_sources first (v : list Z) :
  flat_map (fun p : Z * Z => [p.1]) (offsets first v)
  = seqZ first (Z.of_nat (length v)).
Proof.
  unfold offsets. revert first. induction v as [|n v IH]; intros first; [done|].
  rewrite imap_cons. cbn [flat_map app fst].
  rewrite seqZ_cons by (cbn [length]; lia). f_equal; [lia|].
  replace (Z.pred (Z.of_nat (length (n :: v)))) with (Z.of_nat (length v))
    by (cbn [length]; lia).
  rewrite <- IH. f_equal. apply imap_ext. intros j x _. cbn. f_equal. lia.
Qed.

Lemma degreesFit_sources h ins d i :
  degreesFit h ins -> d ∈ decomposition h -> i ∈ columns h ->
  seqZ (rangeOf h (leaderOf h d + i)).1 (Z.of_nat (length (outDegrees ins d i)))
  = sourcesOf h (leaderOf h d + i).
Proof.
  intros Hfit Hd Hi. rewrite (Hfit d i Hd Hi). unfold sourcesOf.
  rewrite length_seqZ. unfold seqZ. by rewrite Nat2Z.id.
Qed.

Lemma nodesOf_app h vs ws : nodesOf h (vs ++ ws) = nodesOf h vs ++ nodesOf h ws.
Proof. apply flat_map_app. Qed.

Lemma nodesOf_map {A : Type} h (g : A -> Z) xs :
  nodesOf h (map g xs) = flat_map (fun x => sourcesOf h (g x)) xs.
Proof. induction xs as [|x xs IH]; cbn; [done | by rewrite <- IH]. Qed.

Lemma nodesOf_flat_map {A : Type} h (g : A -> list Z) xs :
  nodesOf h (flat_map g xs) = flat_map (fun x => nodesOf h (g x)) xs.
Proof.
  induction xs as [|x xs IH]; [done|]. cbn [flat_map].
  by rewrite nodesOf_app, IH.
Qed.

Lemma flat_map_singleton {A : Type} (xs : list A) :
  flat_map (fun x => [x]) xs = xs.
Proof. induction xs as [|x xs IH]; cbn; [done | by rewrite IH]. Qed.

Lemma elem_of_decomposition h d :
  d ∈ decomposition h <-> 0 <= d < DecomposeFactor (tp h).
Proof. unfold decomposition. rewrite elem_of_seqZ. lia. Qed.

Lemma elem_of_columns h i : i ∈ columns h <-> 0 <= i < numColumnHosts h.
Proof. unfold columns. rewrite elem_of_seqZ. lia. Qed.

(** *** Grid arithmetic *)

Section GridArithmetic.
Context (h : Host) (Hwf : wfHost h).

Lemma own_row_column d :
  gridRowID h (ownVirtual h d) = gridRowID h (id h)
                                 + d * (numHosts h / numColumnHosts h) /\
  gridColumnID h (ownVirtual h d) = gridColumnID h (id h).
Proof.
  destruct Hwf. destruct wf_divides0 as [k Hk].
  unfold gridRowID, gridColumnID, ownVirtual. rewrite Hk.
  rewrite Z.div_mul by lia.
  replace (id h + d * (k * numColumnHosts h))
    with (id h + (d * k) * numColumnHosts h) by lia.
  rewrite Z.div_add by lia. rewrite Z.mod_add by lia. done.
Qed.

Lemma leaderOf_eq d :
  leaderOf h d = gridRowID h (id h) * numColumnHosts h + d * numHosts h.
Proof.
  unfold leaderOf. rewrite (proj1 (own_row_column d)).
  destruct Hwf. destruct wf_divides0 as [k Hk]. rewrite Hk.
  rewrite Z.div_mul by lia. lia.
Qed.

Lemma id_split :
  id h = gridRowID h (id h) * numColumnHosts h + gridColumnID h (id h) /\
  0 <= gridColumnID h (id h) < numColumnHosts h /\
  0 <= gridRowID h (id h) /\
  gridRowID h (id h) * numColumnHosts h + numColumnHosts h <= numHosts h.
Proof.
  destruct Hwf. destruct wf_divides0 as [k Hk].
  unfold gridRowID, gridColumnID.
  pose proof (Z.div_mod (id h) (numColumnHosts h) ltac:(lia)) as Hdm.
  pose proof (Z.mod_pos_bound (id h) (numColumnHosts h) ltac:(lia)) as Hm.
  assert (0 <= id h / numColumnHosts h) by (apply Z.div_pos; lia).
  assert (id h / numColumnHosts h < k).
  { apply Z.div_lt_upper_bound; lia. }
  repeat split; try lia. nia.
Qed.

Lemma leader_own d :
  leaderOf h d + gridColumnID h (id h) = ownVirtual h d.
Proof. rewrite leaderOf_eq. unfold ownVirtual. destruct id_split. lia. Qed.


Lemma own_real d : 0 <= d -> virtual2RealHost h (ownVirtual h d) = id h.
Proof.
  intros Hd. unfold virtual2RealHost, ownVirtual. destruct Hwf.
  rewrite Z.mod_add by lia. apply Z.mod_small. lia.
Qed.

End GridArithmetic.

(** *** The three steps *)

Lemma layoutMasters_appends h ins l l' :
  wfHost h -> degreesFit h ins ->
  layoutMasters h ins l = Ok l' -> appends (nodesOf h (mastersVisited h)) l l'.
Proof.
  intros Hwf Hfit. unfold mastersVisited. rewrite nodesOf_map.
  unfold layoutMasters. apply forM_appends. intros d a b Hd Hrun.
  assert (Hi : gridColumnID h (id h) ∈ columns h).
  { apply elem_of_columns. apply (id_split h Hwf). }
  rewrite <- (leader_own h Hwf d), <- (degreesFit_sources h ins d _ Hfit Hd Hi).
  rewrite (leader_own h Hwf d), <- offsets_sources.
  revert Hrun. apply forM_appends. intros [src n] a' b' _ Hc. cbn [fst].
  by apply createNode_appends in Hc.
Qed.

Lemma visitOutgoing_appends h ins i src n l l' :
  visitOutgoing h ins i src n l = Ok l' -> appends [src] l l'.
Proof.
  intros [->|[H|[[_ H]|(_ & _ & _ & H)]]]%visitOutgoing_Ok;
    [apply appends_refl | by apply createNode_appends in H ..].
Qed.

Lemma layoutOutgoing_appends h ins l l' :
  wfHost h -> degreesFit h ins ->
  layoutOutgoing h ins l = Ok l' -> appends (nodesOf h (outgoingVisited h)) l l'.
Proof.
  intros Hwf Hfit. unfold outgoingVisited. rewrite nodesOf_flat_map.
  unfold layoutOutgoing. apply forM_appends. intros d a b Hd.
  rewrite nodesOf_flat_map. apply forM_appends. intros i a' b' Hi.
  fold (leaderOf h d). cbn zeta.
  destruct (virtual2RealHost h (leaderOf h d + i) =? id h).
  { intros [= <-]. apply appends_refl. }
  cbn [nodesOf flat_map]. rewrite app_nil_r.
  rewrite <- (degreesFit_sources h ins d i Hfit Hd Hi), <- offsets_sources.
  apply forM_appends. intros [src n] a'' b'' _. cbn [fst].
  apply visitOutgoing_appends.
Qed.

Lemma layoutIncoming_appends h ins l l' :
  layoutIncoming h ins l = Ok l' -> appends (nodesOf h (incomingVisited h)) l l'.
Proof.
  unfold incomingVisited. rewrite nodesOf_flat_map.
  unfold layoutIncoming. apply forM_appends. intros i a b Hi. cbn zeta.
  destruct (virtual2RealHost h (incomingPeer h i) =? id h).
  { intros [= <-]. apply appends_refl. }
  destruct (columnBlocked (tp h) && inOwnRows h (incomingPeer h i)).
  { intros [= <-]. apply appends_refl. }
  cbn [nodesOf flat_map]. rewrite app_nil_r.
  rewrite <- (flat_map_singleton (sourcesOf h (incomingPeer h i))) at 2.
  apply forM_appends. intros dst a' b' _.
  destruct (incomingBit h ins dst); [apply createNode_appends|].
  intros [= <-]. apply appends_refl.
Qed.

(** The local-to-global vector is drawn, in order, from the ranges of the
    visited virtual hosts, and [numNodes] counts it. *)
Lemma layout_sublist h ins l :
  wfHost h -> degreesFit h ins -> layout h ins = Ok l ->
  localToGlobalVector l `sublist_of` nodesOf h (visited h) /\ counted l.
Proof.
  intros Hwf Hfit. unfold layout.
  destruct (layoutMasters h ins (emptyLocal (ownedCount h))) as [l1|] eqn:H1;
    [cbn|done].
  destruct (layoutOutgoing h ins l1) as [l2|] eqn:H2; [cbn|done].
  intros H3. split.
  - apply layoutMasters_appends in H1 as (p1 & E1 & S1); [|done..].
    apply layoutOutgoing_appends in H2 as (p2 & E2 & S2); [|done..].
    apply layoutIncoming_appends in H3 as (p3 & E3 & S3).
    cbn in E1, E3. rewrite E3, E2, E1. unfold visited.
    rewrite !nodesOf_app, <- app_assoc. by repeat apply sublist_app.
  - apply (layoutIncoming_stable _ _ _ _ _ (stable_counted h) H3).
    apply (layoutOutgoing_stable _ _ _ _ _ (stable_counted h) H2).
    apply (layoutMasters_stable _ _ _ _ _ (stable_counted h) H1).
    reflexivity.
Qed.

(** *** Ranges of a contiguous cover *)

Lemma elem_of_flat_map {A B : Type} (f : A -> list B) (l : list A) (z : B) :
  z ∈ flat_map f l <-> exists x, x ∈ l /\ z ∈ f x.
Proof.
  rewrite list_elem_of_In, in_flat_map. split; intros (x & Hx & Hz); exists x;
    by rewrite ?list_elem_of_In in *.
Qed.

Lemma NoDup_flat_map {A B : Type} (f : A -> list B) (l : list A) :
  NoDup l -> (forall x, x ∈ l -> NoDup (f x)) ->
  (forall x y z, x ∈ l -> y ∈ l -> z ∈ f x -> z ∈ f y -> x = y) ->
  NoDup (flat_map f l).
Proof.
  induction 1 as [|x l Hx Hl IH]; intros Hf Hdisj; cbn; [constructor|].
  apply NoDup_app. split; [apply Hf; by left|]. split.
  - intros z Hz (y & Hy & Hzy)%elem_of_flat_map.
    assert (x = y) as -> by (apply (Hdisj x y z); try done; [by left | by right]).
    done.
  - apply IH.
    + intros y Hy. apply Hf. by right.
    + intros y y' z Hy Hy'. apply Hdisj; by right.
Qed.

Lemma chained_bounds ranges : forall s n a r,
  chained s ranges n -> ranges !! a = Some r ->
  s <= r.1 /\ r.1 <= r.2 /\ r.2 <= n.
Proof.
  induction ranges as [|r0 ranges IH]; intros s n a r Hc Ha; [done|].
  cbn in Hc. destruct Hc as (E & Hle & Hc).
  assert (Hn : r0.2 <= n).
  { clear -Hc IH. destruct ranges as [|r1 ranges]; cbn in Hc; [lia|].
    destruct Hc as (E1 & Hle1 & Hc).
    specialize (IH r0.2 n 0%nat r1 (conj E1 (conj Hle1 Hc)) eq_refl). lia. }
  destruct a as [|a]; cbn in Ha.
  - injection Ha as <-. lia.
  - specialize (IH _ _ _ _ Hc Ha). lia.
Qed.

Lemma chained_ordered ranges : forall s n a b ra rb,
  chained s ranges n -> (a < b)%nat ->
  ranges !! a = Some ra -> ranges !! b = Some rb -> ra.2 <= rb.1.
Proof.
  induction ranges as [|r0 ranges IH]; intros s n a b ra rb Hc Hab Ha Hb;
    [done|].
  cbn in Hc. destruct Hc as (E & Hle & Hc).
  destruct b as [|b]; [lia|]. cbn in Hb. destruct a as [|a]; cbn in Ha.
  - injection Ha as <-. pose proof (chained_bounds _ _ _ _ _ Hc Hb). lia.
  - apply (IH _ _ a b ra rb Hc); [lia | done..].
Qed.

Lemma elem_of_sourcesOf h v x :
  x ∈ sourcesOf h v <-> (rangeOf h v).1 <= x < (rangeOf h v).2.
Proof. unfold sourcesOf. rewrite elem_of_seqZ. lia. Qed.

Lemma rangeOf_lookup h v :
  (exists r, gid2host h !! Z.to_nat v = Some r /\ rangeOf h v = r) \/
  rangeOf h v = (0, 0).
Proof.
  unfold rangeOf, at_. rewrite nth_lookup.
  destruct (gid2host h !! Z.to_nat v) as [r|]; [left; by exists r | by right].
Qed.

Lemma sourcesOf_bounds h v x :
  wfHost h -> x ∈ sourcesOf h v -> 0 <= x < numGlobalNodes h.
Proof.
  intros Hwf Hx%elem_of_sourcesOf.
  destruct (rangeOf_lookup h v) as [(r & Hr & E)|E]; rewrite E in Hx;
    [|cbn in Hx; lia].
  pose proof (chained_bounds _ _ _ _ _ (wf_cover h Hwf) Hr). lia.
Qed.

Lemma sourcesOf_disjoint h v w x :
  wfHost h -> 0 <= v -> 0 <= w -> v <> w ->
  x ∈ sourcesOf h v -> x ∈ sourcesOf h w -> False.
Proof.
  intros Hwf Hv Hw Hne Hxv%elem_of_sourcesOf Hxw%elem_of_sourcesOf.
  destruct (rangeOf_lookup h v) as [(rv & Hrv & Ev)|Ev]; rewrite Ev in Hxv;
    [|cbn in Hxv; lia].
  destruct (rangeOf_lookup h w) as [(rw & Hrw & Ew)|Ew]; rewrite Ew in Hxw;
    [|cbn in Hxw; lia].
  destruct (decide (v < w)).
  - pose proof (chained_ordered _ _ _ (Z.to_nat v) (Z.to_nat w) _ _
                  (wf_cover h Hwf) ltac:(lia) Hrv Hrw). lia.
  - pose proof (chained_ordered _ _ _ (Z.to_nat w) (Z.to_nat v) _ _
                  (wf_cover h Hwf) ltac:(lia) Hrw Hrv). lia.
Qed.

Lemma nodesOf_NoDup h vs :
  wfHost h -> NoDup vs -> (forall v, v ∈ vs -> 0 <= v) -> NoDup (nodesOf h vs).
Proof.
  intros Hwf Hvs Hpos. apply NoDup_flat_map; [done | |].
  - intros v _. apply NoDup_seqZ.
  - intros v w x Hv Hw Hxv Hxw. destruct (decide (v = w)); [done|].
    exfalso. apply (sourcesOf_disjoint h v w x); auto.
Qed.

(** *** The visited virtual hosts are pairwise distinct *)

Section Visited.
Context (h : Host) (Hwf : wfHost h).

Lemma hosts_ge_columns : numColumnHosts h <= numHosts h.
Proof.
  destruct Hwf. destruct wf_divides0 as [k Hk].
  assert (0 < k) by nia. nia.
Qed.

Lemma in_mastersVisited v :
  v ∈ mastersVisited h <-> exists d, d ∈ decomposition h /\ v = ownVirtual h d.
Proof.
  unfold mastersVisited. rewrite list_elem_of_In, in_map_iff.
  split; intros (d & H1 & H2); exists d; rewrite ?list_elem_of_In in *; done.
Qed.

Lemma in_outgoingVisited v :
  v ∈ outgoingVisited h ->
  exists d i, d ∈ decomposition h /\ i ∈ columns h /\
              v = leaderOf h d + i /\ virtual2RealHost h v <> id h.
Proof.
  unfold outgoingVisited.
  intros (d & Hd & (i & Hi & Hv)%elem_of_flat_map)%elem_of_flat_map.
  cbn zeta in Hv.
  destruct (Z.eqb_spec (virtual2RealHost h (leaderOf h d + i)) (id h));
    [by apply elem_of_nil in Hv|].
  apply list_elem_of_singleton in Hv as ->. by exists d, i.
Qed.

Lemma in_incomingVisited v :
  v ∈ incomingVisited h ->
  exists i, 0 <= i < numRowHosts h /\ v = incomingPeer h i /\
            virtual2RealHost h v <> id h /\
            (columnBlocked (tp h) = true -> inOwnRows h v = false).
Proof.
  unfold incomingVisited. intros (i & Hi & Hv)%elem_of_flat_map.
  cbn zeta in Hv. apply elem_of_seqZ in Hi.
  destruct (Z.eqb_spec (virtual2RealHost h (incomingPeer h i)) (id h));
    [by apply elem_of_nil in Hv|].
  destruct (columnBlocked (tp h) && inOwnRows h (incomingPeer h i)) eqn:E;
    [by apply elem_of_nil in Hv|].
  apply list_elem_of_singleton in Hv as ->. exists i.
  repeat split; try lia; try done.
  intros Hcb. rewrite Hcb in E. done.
Qed.

Lemma mastersVisited_NoDup : NoDup (mastersVisited h).
Proof.
  unfold mastersVisited.
  replace (map (ownVirtual h) (decomposition h))
    with (flat_map (fun d => [ownVirtual h d]) (decomposition h))
    by (induction (decomposition h) as [|? ? IH]; cbn; [done | by rewrite IH]).
  apply NoDup_flat_map; [apply NoDup_seqZ | |].
  - intros d _. apply NoDup_singleton.
  - intros d d' v _ _ ->%list_elem_of_singleton E%list_elem_of_singleton.
    unfold ownVirtual in E. destruct Hwf. nia.
Qed.

Lemma outgoingVisited_NoDup : NoDup (outgoingVisited h).
Proof.
  pose proof hosts_ge_columns as Hge.
  unfold outgoingVisited. apply NoDup_flat_map; [apply NoDup_seqZ | |].
  - intros d _. apply NoDup_flat_map; [apply NoDup_seqZ | |].
    + intros i _. cbn zeta. destruct (_ =? _); [constructor|].
      apply NoDup_singleton.
    + intros i i' v _ _. cbn zeta.
      destruct (_ =? _); [by intros ?%elem_of_nil|].
      destruct (_ =? _); [by intros _ ?%elem_of_nil|].
      intros ->%list_elem_of_singleton E%list_elem_of_singleton. lia.
  - intros d d' v Hd Hd' (i & Hi & Hv)%elem_of_flat_map
           (i' & Hi' & Hv')%elem_of_flat_map.
    cbn zeta in Hv, Hv'.
    destruct (_ =? _) in Hv; [by apply elem_of_nil in Hv|].
    destruct (_ =? _) in Hv'; [by apply elem_of_nil in Hv'|].
    apply list_elem_of_singleton in Hv as ->.
    apply list_elem_of_singleton in Hv'.
    rewrite !(leaderOf_eq h Hwf) in Hv'.
    apply elem_of_columns in Hi, Hi'. destruct Hwf. nia.
Qed.

Lemma incomingPeer_inj i i' : incomingPeer h i = incomingPeer h i' -> i = i'.
Proof.
  unfold incomingPeer. destruct Hwf.
  destruct (columnBlocked (tp h)); intros E; nia.
Qed.

Lemma incomingVisited_NoDup : NoDup (incomingVisited h).
Proof.
  unfold incomingVisited. apply NoDup_flat_map; [apply NoDup_seqZ | |].
  - intros i _. cbn zeta. destruct (_ =? _); [constructor|].
    destruct (_ && _); [constructor | apply NoDup_singleton].
  - intros i i' v _ _. cbn zeta.
    destruct (_ =? _); [by intros ?%elem_of_nil|].
    destruct (_ && _); [by intros ?%elem_of_nil|].
    destruct (_ =? _); [by intros _ ?%elem_of_nil|].
    destruct (_ && _); [by intros _ ?%elem_of_nil|].
    intros ->%list_elem_of_singleton E%list_elem_of_singleton.
    by apply incomingPeer_inj.
Qed.

(** A member of one of the own grid rows, in checkerboard terms. *)
Lemma row_member_inOwnRows d i :
  d ∈ decomposition h -> i ∈ columns h -> inOwnRows h (leaderOf h d + i) = true.
Proof.
  intros Hd Hi. unfold inOwnRows. apply existsb_exists. exists d.
  split; [by apply list_elem_of_In|]. fold (leaderOf h d).
  apply elem_of_columns in Hi. apply andb_true_iff.
  split; [apply Z.leb_le | apply Z.ltb_lt]; lia.
Qed.

(** Outside checkerboard mode a member of an own row that lies in the own
    column is an own virtual host. *)
Lemma row_member_own_column d i i' :
  d ∈ decomposition h -> i ∈ columns h ->
  leaderOf h d + i = i' * numColumnHosts h + gridColumnID h (id h) ->
  virtual2RealHost h (leaderOf h d + i) = id h.
Proof.
  intros Hd%elem_of_decomposition Hi%elem_of_columns E.
  destruct (id_split h Hwf) as (Hid & Hcol & Hrow & Hfit).
  assert (i = gridColumnID h (id h)) as ->.
  { rewrite (leaderOf_eq h Hwf) in E. destruct Hwf.
    destruct wf_divides0 as [k Hk]. rewrite Hk in E.
    assert (Hm : (i' - gridRowID h (id h) - d * k) * numColumnHosts h
                 = i - gridColumnID h (id h)) by lia.
    clear -Hm Hi Hcol.
    destruct (Z.lt_trichotomy (i' - gridRowID h (id h) - d * k) 0)
      as [?|[?|?]]; nia. }
  rewrite (leader_own h Hwf). apply (own_real h Hwf). lia.
Qed.

Lemma visited_NoDup : NoDup (visited h).
Proof.
  unfold visited. apply NoDup_app. split; [apply mastersVisited_NoDup|]. split.
  - intros v (d & Hd & ->)%in_mastersVisited Hv.
    assert (Hreal : virtual2RealHost h (ownVirtual h d) = id h).
    { apply (own_real h Hwf). apply elem_of_decomposition in Hd. lia. }
    apply elem_of_app in Hv as [Hv|Hv].
    + apply in_outgoingVisited in Hv as (? & ? & _ & _ & _ & Hne). done.
    + apply in_incomingVisited in Hv as (? & _ & _ & Hne & _). done.
  - apply NoDup_app. split; [apply outgoingVisited_NoDup|].
    split; [|apply incomingVisited_NoDup].
    intros v (d & i & Hd & Hi & -> & Hne)%in_outgoingVisited
           (i' & Hi' & E & _ & Hrows)%in_incomingVisited.
    unfold incomingPeer in E.
    destruct (columnBlocked (tp h)) eqn:Hcb.
    + rewrite (row_member_inOwnRows d i Hd Hi) in Hrows. by specialize (Hrows eq_refl).
    + apply Hne. by apply (row_member_own_column d i i').
Qed.

Lemma visited_nonneg v : v ∈ visited h -> 0 <= v.
Proof.
  destruct (id_split h Hwf) as (Hid & Hcol & Hrow & Hfit).
  unfold visited. rewrite !elem_of_app. intros [Hv|[Hv|Hv]].
  - apply in_mastersVisited in Hv as (d & Hd%elem_of_decomposition & ->).
    unfold ownVirtual. destruct Hwf. nia.
  - apply in_outgoingVisited in Hv
      as (d & i & Hd%elem_of_decomposition & Hi%elem_of_columns & -> & _).
    rewrite (leaderOf_eq h Hwf). destruct Hwf. nia.
  - apply in_incomingVisited in Hv as (i & Hi & -> & _).
    unfold incomingPeer. destruct Hwf.
    assert (0 <= numRowHosts h) by nia.
    destruct (columnBlocked (tp h)); nia.
Qed.

End Visited.

(** The layout on any inspection whose degree vectors fit the ranges. *)
Lemma layout_distinct h ins l :
  wfHost h -> degreesFit h ins -> layout h ins = Ok l ->
  NoDup (localToGlobalVector l) /\
  numNodes l = Z.of_nat (length (localToGlobalVector l)).
Proof.
  intros Hwf Hfit Hrun.
  destruct (layout_sublist h ins l Hwf Hfit Hrun) as [Hsub Hcnt].
  assert (Hnd : NoDup (localToGlobalVector l)).
  { apply (sublist_NoDup _ _ (nodesOf_NoDup h _ Hwf (visited_NoDup h Hwf)
                                (visited_nonneg h Hwf)) Hsub). }
  split; [done|].
  assert (Hin : forall x, x ∈ localToGlobalVector l ->
                          x ∈ seqZ 0 (numGlobalNodes h)).
  { intros x Hx. apply (elem_of_sublist _ _ _ Hx) in Hsub.
    apply elem_of_flat_map in Hsub as (v & _ & Hv).
    apply elem_of_seqZ. pose proof (sourcesOf_bounds h v x Hwf Hv). lia. }
  pose proof (submseteq_length _ _ (NoDup_submseteq _ _ Hnd Hin)) as Hlen.
  rewrite length_seqZ in Hlen. unfold counted in Hcnt. rewrite Hcnt.
  apply u32_small. pose proof (wf_nodes h Hwf). lia.
Qed.

(** ** Exchange: the degree vectors fit the ranges *)

(** *** Vectors *)

Lemma at_lookup {A : Type} (d : A) v i : at_ d v i = default d (v !! Z.to_nat i).
Proof. unfold at_. apply nth_lookup. Qed.

Lemma at_upd {A : Type} (d : A) v i j f :
  at_ d (upd v i f) j =
  if decide (Z.to_nat i = Z.to_nat j /\ (Z.to_nat i < length v)%nat)
  then f (at_ d v j) else at_ d v j.
Proof.
  rewrite !at_lookup. unfold upd. case_decide as Hc.
  - destruct Hc as [<- Hlt]. rewrite list_lookup_alter_eq.
    destruct (lookup_lt_is_Some_2 v _ Hlt) as [x ->]. done.
  - destruct (decide (Z.to_nat i = Z.to_nat j)) as [E|Hne].
    + rewrite <- E. rewrite list_lookup_alter_eq.
      rewrite (lookup_ge_None_2 v (Z.to_nat i)) by lia. done.
    + by rewrite list_lookup_alter_ne.
Qed.

Lemma at_insert {A : Type} (d : A) v i j x :
  at_ d (<[Z.to_nat i := x]> v) j =
  if decide (Z.to_nat i = Z.to_nat j /\ (Z.to_nat i < length v)%nat)
  then x else at_ d v j.
Proof.
  rewrite !at_lookup. case_decide as Hc.
  - destruct Hc as [<- Hlt]. by rewrite list_lookup_insert_eq.
  - destruct (decide (Z.to_nat i = Z.to_nat j)) as [E|Hne].
    + rewrite <- E. rewrite list_insert_ge by lia. done.
    + by rewrite list_lookup_insert_ne.
Qed.

Lemma at_map_seqZ {A : Type} (d : A) (f : Z -> A) n i :
  0 <= i < n -> at_ d (map f (seqZ 0 n)) i = f i.
Proof.
  intros Hi. rewrite at_lookup.
  change (map f (seqZ 0 n)) with (f <$> seqZ 0 n).
  rewrite list_lookup_fmap, (lookup_seqZ_lt 0 n (Z.to_nat i)) by lia.
  cbn. f_equal. lia.
Qed.

(** Length of the degree vector at row [d], column [i]. *)
Lemma length_upd {A : Type} (v : list A) i f : length (upd v i f) = length v.
Proof. apply length_alter. Qed.

Lemma degrees_length_upd (no : list (list (list Z))) d0 c k f d i :
  length (at_ [] (at_ [] (upd no d0 (fun row =>
            upd row c (fun v => upd v k f))) d) i)
  = length (at_ [] (at_ [] no d) i).
Proof.
  rewrite at_upd. case_decide; [|done].
  rewrite at_upd. case_decide; [|done]. apply length_upd.
Qed.

(** *** Inspection *)

Lemma inspect_degrees_length h g d i :
  0 <= d < DecomposeFactor (tp h) -> 0 <= i < numColumnHosts h ->
  length (outDegrees (inspect h g) d i)
  = Z.to_nat (rangeSize h (ownVirtual h d)).
Proof.
  intros Hd Hi. unfold inspect, outDegrees.
  set (len := fun ins : Inspection =>
                length (at_ [] (at_ [] (numOutgoingEdges ins) d) i)).
  assert (Hedge : forall d' src dst ins,
             len (inspectEdge h d' src dst ins) = len ins).
  { intros. unfold len, inspectEdge. cbn [numOutgoingEdges].
    apply degrees_length_upd. }
  assert (Hfold : forall {A : Type} (step : Inspection -> A -> Inspection)
                         (xs : list A) ins,
             (forall a x, len (step a x) = len a) ->
             len (foldl step ins xs) = len ins).
  { intros A step xs. induction xs as [|x xs IH]; intros ins Hs; [done|].
    cbn. rewrite IH by done. apply Hs. }
  change (len (foldl
    (fun ins d0 => foldl (fun ins0 src =>
       foldl (fun ins1 dst => inspectEdge h d0 src dst ins1) ins0
             (edgesOf g src)) ins (sourcesOf h (ownVirtual h d0)))
    (emptyInspection h) (decomposition h))
    = Z.to_nat (rangeSize h (ownVirtual h d))).
  rewrite Hfold.
  - unfold len, emptyInspection, decomposition, columns.
    cbn [numOutgoingEdges].
    rewrite at_map_seqZ by done. rewrite at_map_seqZ by done.
    apply length_replicate.
  - intros a d'. apply Hfold. intros a' src. apply Hfold. intros a'' dst.
    apply Hedge.
Qed.

Lemma rangeSize_length h v :
  wfHost h -> Z.to_nat (rangeSize h v) = length (sourcesOf h v).
Proof.
  intros Hwf. unfold rangeSize, sourcesOf. rewrite length_seqZ.
  destruct (rangeOf_lookup h v) as [(r & Hr & E)|E]; rewrite E; [|done].
  pose proof (chained_bounds _ _ _ _ _ (wf_cover h Hwf) Hr).
  pose proof (wf_nodes h Hwf). rewrite u64_small; [done|]. lia.
Qed.

(** *** Merging a buffer *)

Lemma length_foldl_upd {A : Type} (F : Z -> A -> A) ds (no : list A) :
  length (foldl (fun no d => upd no d (F d)) no ds) = length no.
Proof.
  revert no. induction ds as [|d ds IH]; intros no; [done|].
  cbn. by rewrite IH, length_upd.
Qed.

Lemma at_foldl_upd {A : Type} (F : Z -> A -> A) (def : A) ds (no : list A) j :
  (forall d, d ∈ ds -> 0 <= d) -> 0 <= j -> NoDup ds ->
  at_ def (foldl (fun no d => upd no d (F d)) no ds) j =
  if decide (j ∈ ds /\ (Z.to_nat j < length no)%nat)
  then F j (at_ def no j) else at_ def no j.
Proof.
  intros Hpos Hj Hnd. revert no.
  induction Hnd as [|d ds Hd Hnd IH]; intros no.
  - cbn. case_decide as Hc; [|done]. destruct Hc as [Hc _].
    by apply elem_of_nil in Hc.
  - cbn [foldl]. rewrite IH by (intros; apply Hpos; by right).
    rewrite length_upd, at_upd.
    assert (0 <= d) by (apply Hpos; by left).
    destruct (decide (d = j)) as [->|Hne].
    + rewrite (decide_False (P := j ∈ ds /\ _)) by tauto.
      destruct (decide (Z.to_nat j < length no)%nat) as [Hlt|Hge].
      * rewrite (decide_True (P := Z.to_nat j = Z.to_nat j /\ _)) by done.
        rewrite (decide_True (P := j ∈ j :: ds /\ _)); [done|].
        split; [by left | done].
      * rewrite (decide_False (P := Z.to_nat j = Z.to_nat j /\ _)) by tauto.
        rewrite (decide_False (P := j ∈ j :: ds /\ _)); [done | tauto].
    + rewrite (decide_False (P := Z.to_nat d = Z.to_nat j /\ _)) by lia.
      destruct (decide (j ∈ ds /\ (Z.to_nat j < length no)%nat))
        as [[Hin Hlt]|Hout].
      * rewrite decide_True; [done|]. split; [by right | done].
      * rewrite decide_False; [done|].
        intros [[->|Hin]%elem_of_cons Hlt]; tauto.
Qed.

Section Merge.
Context (h : Host) (Hwf : wfHost h).

Lemma slot_bounds m : 0 <= sender m mod numColumnHosts h < numColumnHosts h.
Proof. apply Z.mod_pos_bound. pose proof (wf_columns h Hwf). lia. Qed.

Lemma merge_degrees m ins d i :
  shaped h (numOutgoingEdges ins) ->
  0 <= d < DecomposeFactor (tp h) -> 0 <= i < numColumnHosts h ->
  outDegrees (mergeBuffer h m ins) d i =
  if decide (sender m mod numColumnHosts h = i) then at_ [] (degrees m) d
  else outDegrees ins d i.
Proof.
  intros [Hlen Hrows] Hd Hi. unfold outDegrees, mergeBuffer.
  cbn [numOutgoingEdges].
  pose proof (slot_bounds m) as Hc.
  rewrite (at_foldl_upd
             (fun d perColumn =>
                <[Z.to_nat (sender m mod numColumnHosts h) :=
                    at_ [] (degrees m) d]> perColumn)).
  - rewrite decide_True.
    + rewrite at_insert, (Hrows d Hd).
      repeat case_decide; try done; exfalso; lia.
    + split; [by apply elem_of_decomposition | lia].
  - intros d' Hd'%elem_of_decomposition. lia.
  - lia.
  - apply NoDup_seqZ.
Qed.

Lemma merge_shaped m ins :
  shaped h (numOutgoingEdges ins) ->
  shaped h (numOutgoingEdges (mergeBuffer h m ins)).
Proof.
  intros [Hlen Hrows]. unfold mergeBuffer. cbn [numOutgoingEdges]. split.
  - by rewrite length_foldl_upd.
  - intros d Hd.
    rewrite (at_foldl_upd
               (fun d perColumn =>
                  <[Z.to_nat (sender m mod numColumnHosts h) :=
                      at_ [] (degrees m) d]> perColumn)).
    + case_decide; rewrite ?length_insert; by apply Hrows.
    + intros d' Hd'%elem_of_decomposition. lia.
    + lia.
    + apply NoDup_seqZ.
Qed.

(** After merging the buffers [ms], the vector in row [d] and column [i]
    has the property [Q] when every buffer for the column has it, and
    either the vector had it before or some buffer is for the column. *)
Lemma merge_all_degrees (Q : list Z -> Prop) d i ms ins :
  shaped h (numOutgoingEdges ins) ->
  0 <= d < DecomposeFactor (tp h) -> 0 <= i < numColumnHosts h ->
  (forall m, m ∈ ms -> sender m mod numColumnHosts h = i ->
             Q (at_ [] (degrees m) d)) ->
  Q (outDegrees ins d i) \/
    Exists (fun m => sender m mod numColumnHosts h = i) ms ->
  Q (outDegrees (foldl (fun ins m => mergeBuffer h m ins) ins ms) d i).
Proof.
  intros Hshape Hd Hi. revert ins Hshape.
  induction ms as [|m ms IH]; intros ins Hshape Hall Hsome.
  - cbn. destruct Hsome as [?|Hex]; [done | by apply Exists_nil in Hex].
  - cbn [foldl]. apply IH.
    + by apply merge_shaped.
    + intros m' Hm'. apply Hall. by right.
    + destruct (decide (Exists (fun m => sender m mod numColumnHosts h = i) ms))
        as [Hex|Hnex]; [by right|]. left.
      rewrite merge_degrees by done. case_decide as Hslot.
      * apply Hall; [by left | done].
      * destruct Hsome as [?|Hex]; [done|].
        apply Exists_cons in Hex as [?|?]; done.
Qed.

End Merge.

Lemma receiveBuffers_all h n inbox ins merged :
  (length inbox <= n)%nat ->
  receiveBuffers h n inbox ins = Ok merged ->
  merged = foldl (fun ins m => mergeBuffer h m ins) ins inbox.
Proof.
  revert inbox ins. induction n as [|n IH]; intros inbox ins Hlen Hrun.
  - destruct inbox; [|cbn in Hlen; lia]. cbn in Hrun. by injection Hrun as <-.
  - destruct inbox as [|m rest]; [done|]. cbn in Hrun, Hlen.
    cbn [foldl]. apply IH; [lia | done].
Qed.

Lemma inspect_invariant (P : Inspection -> Prop) h g :
  P (emptyInspection h) ->
  (forall d src dst ins, P ins -> P (inspectEdge h d src dst ins)) ->
  P (inspect h g).
Proof.
  intros Hempty Hedge. unfold inspect.
  assert (Hfold : forall {A : Type} (step : Inspection -> A -> Inspection)
                         (xs : list A) ins,
             (forall a x, P a -> P (step a x)) -> P ins ->
             P (foldl step ins xs)).
  { intros A step xs. induction xs as [|x xs IH]; intros ins Hs Hins; [done|].
    cbn. apply IH; [done|]. by apply Hs. }
  apply Hfold; [|done]. intros a d Ha.
  apply Hfold; [|done]. intros a' src Ha'.
  apply Hfold; [|done]. intros a'' dst Ha''. by apply Hedge.
Qed.

Lemma inspect_shaped h g :
  0 <= numColumnHosts h -> shaped h (numOutgoingEdges (inspect h g)).
Proof.
  intros HC. apply (inspect_invariant (fun ins => shaped h (numOutgoingEdges ins))).
  - unfold shaped, emptyInspection, decomposition, columns.
    cbn [numOutgoingEdges]. split.
    + by rewrite length_map, length_seqZ.
    + intros d Hd. rewrite at_map_seqZ by done.
      by rewrite length_map, length_seqZ.
  - intros d src dst ins [Hlen Hrows]. unfold inspectEdge.
    cbn [numOutgoingEdges]. split.
    + by rewrite length_upd.
    + intros d' Hd'. rewrite at_upd. case_decide; [|by apply Hrows].
      rewrite length_upd. by apply Hrows.
Qed.

(** *** The buffers a host receives *)

Lemma filter_flat_map {A B : Type} (P : B -> Prop) `{!forall x, Decision (P x)}
    (f : A -> list B) (l : list A) :
  filter P (flat_map f l) = flat_map (fun x => filter P (f x)) l.
Proof.
  induction l as [|x l IH]; [done|]. cbn [flat_map].
  by rewrite filter_app, IH.
Qed.

Lemma flat_map_ext_elem {A B : Type} (f g : A -> list B) (l : list A) :
  (forall x, x ∈ l -> f x = g x) -> flat_map f l = flat_map g l.
Proof.
  induction l as [|x l IH]; intros H; [done|]. cbn.
  rewrite (H x) by (by left). rewrite IH; [done|].
  intros y Hy. apply H. by right.
Qed.

Lemma flat_map_select {A : Type} (G : Z -> A) (Q : Prop) `{!Decision Q}
    (c : Z) (l : list Z) :
  NoDup l -> c ∈ l ->
  flat_map (fun i => if decide (i = c /\ Q) then [G i] else []) l
  = if decide Q then [G c] else [].
Proof.
  induction 1 as [|x l Hx Hnd IH]; intros Hc; [by apply elem_of_nil in Hc|].
  cbn [flat_map]. destruct (decide (x = c)) as [->|Hne].
  - assert (Hrest : flat_map (fun i => if decide (i = c /\ Q) then [G i] else []) l = []).
    { clear -Hx. induction l as [|y l IH]; [done|]. cbn.
      rewrite decide_False.
      - apply IH. intros ?. apply Hx. by right.
      - intros [-> _]. apply Hx. by left. }
    rewrite Hrest, app_nil_r.
    destruct (decide Q); [by rewrite decide_True | by rewrite decide_False by tauto].
  - rewrite decide_False by tauto. cbn. apply IH.
    apply elem_of_cons in Hc as [->|Hc]; done.
Qed.

Lemma flat_map_filter {A B : Type} (R : A -> Prop) `{!forall x, Decision (R x)}
    (G : A -> B) (l : list A) :
  flat_map (fun p => if decide (R p) then [G p] else []) l = map G (filter R l).
Proof.
  induction l as [|x l IH]; [done|]. cbn [flat_map]. rewrite filter_cons.
  destruct (decide (R x)); cbn; by rewrite IH.
Qed.

Lemma split_unique C q1 r1 q2 r2 :
  0 <= r1 < C -> 0 <= r2 < C -> q1 * C + r1 = q2 * C + r2 ->
  q1 = q2 /\ r1 = r2.
Proof.
  intros H1 H2 E. assert ((q1 - q2) * C = r2 - r1) by lia.
  destruct (Z.lt_trichotomy (q1 - q2) 0) as [?|[?|?]]; nia.
Qed.

Section Inbox.
Context (h : Host) (Hwf : wfHost h) (g : Graph).

Lemma sendBuffers_unfold p :
  sendBuffers (onHost h p) (inspect (onHost h p) g)
  = flat_map (fun i =>
      if gridRowID h p * numColumnHosts h + i =? p then []
      else [bufferFor h g i p])
      (columns h).
Proof. reflexivity. Qed.

Lemma div_mod_columns p :
  p = gridRowID h p * numColumnHosts h + gridColumnID h p /\
  0 <= gridColumnID h p < numColumnHosts h.
Proof.
  pose proof (wf_columns h Hwf). unfold gridRowID, gridColumnID.
  pose proof (Z.div_mod p (numColumnHosts h) ltac:(lia)).
  pose proof (Z.mod_pos_bound p (numColumnHosts h) ltac:(lia)). lia.
Qed.

(** What host [p] addresses to this host: one buffer if it is a row peer. *)
Lemma addressed_here p :
  filter (fun m => target m = id h)
         (sendBuffers (onHost h p) (inspect (onHost h p) g))
  = if decide (rowPeer h p)
    then [bufferFor h g (gridColumnID h (id h)) p] else [].
Proof.
  rewrite sendBuffers_unfold, filter_flat_map.
  destruct (div_mod_columns p) as [Hp Hpc].
  destruct (div_mod_columns (id h)) as [Hid Hidc].
  rewrite <- (flat_map_select (fun i => bufferFor h g i p) (rowPeer h p)
                (gridColumnID h (id h)) (columns h));
    [|apply NoDup_seqZ | by apply elem_of_columns].
  apply flat_map_ext_elem. intros i Hi%elem_of_columns.
  destruct (Z.eqb_spec (gridRowID h p * numColumnHosts h + i) p) as [E|Hne].
  - rewrite filter_nil. rewrite decide_False; [done|].
    intros [-> [Hrow Hnid]]. apply Hnid. rewrite <- E, Hrow. lia.
  - rewrite filter_cons, filter_nil.
    change (target (bufferFor h g i p))
      with (gridRowID h p * numColumnHosts h + i).
    destruct (decide (gridRowID h p * numColumnHosts h + i = id h)) as [T|T].
    + assert (T' : gridRowID h p * numColumnHosts h + i
                   = gridRowID h (id h) * numColumnHosts h
                     + gridColumnID h (id h)) by lia.
      apply split_unique in T' as [Hrow Hcol]; [|lia..].
      rewrite decide_True; [done|]. split; [done|]. split; [done|].
      intros ->. apply Hne. rewrite Hcol. lia.
    + rewrite decide_False; [done|]. intros [-> [Hrow _]]. apply T.
      rewrite Hrow. lia.
Qed.

Lemma metaInbox_eq :
  metaInbox h g
  = map (bufferFor h g (gridColumnID h (id h)))
        (filter (rowPeer h) (seqZ 0 (numHosts h))).
Proof.
  unfold metaInbox. rewrite filter_flat_map.
  rewrite <- (flat_map_filter (rowPeer h)).
  apply flat_map_ext_elem. intros p _. apply addressed_here.
Qed.

Lemma rowPeers_length :
  (length (filter (rowPeer h) (seqZ 0 (numHosts h)))
   <= Z.to_nat (numColumnHosts h - 1))%nat.
Proof.
  set (L := filter (rowPeer h) (seqZ 0 (numHosts h))).
  destruct (div_mod_columns (id h)) as [Hid Hidc].
  assert (Hnd : NoDup (id h :: L)).
  { constructor; [|apply NoDup_filter, NoDup_seqZ].
    intros [[_ Hne] _]%list_elem_of_filter. done. }
  assert (Hin : forall p, p ∈ id h :: L ->
            p ∈ seqZ (gridRowID h (id h) * numColumnHosts h) (numColumnHosts h)).
  { intros p Hp. apply elem_of_seqZ.
    destruct (div_mod_columns p) as [Hpeq Hpc].
    apply elem_of_cons in Hp as [->|[[Hrow _] _]%list_elem_of_filter]; [lia|].
    rewrite <- Hrow. lia. }
  pose proof (submseteq_length _ _ (NoDup_submseteq _ _ Hnd Hin)) as Hlen.
  rewrite length_seqZ in Hlen. cbn [length] in Hlen. lia.
Qed.

(** The buffer of the row peer in column [i]. *)
Lemma peer_buffer_received i :
  0 <= i < numColumnHosts h -> i <> gridColumnID h (id h) ->
  Exists (fun m => sender m mod numColumnHosts h = i) (metaInbox h g).
Proof.
  intros Hi Hne. rewrite metaInbox_eq. apply Exists_exists.
  destruct (id_split h Hwf) as (Hid & Hcol & Hrow & Hfit).
  pose proof (wf_columns h Hwf).
  set (p := gridRowID h (id h) * numColumnHosts h + i).
  assert (Hdiv : p / numColumnHosts h = gridRowID h (id h) /\
                 p mod numColumnHosts h = i).
  { unfold p. rewrite Z.add_comm, Z.div_add, Z.mod_add by lia.
    rewrite Z.div_small, Z.mod_small by lia. lia. }
  exists (bufferFor h g (gridColumnID h (id h)) p). split.
  - apply list_elem_of_In, in_map, list_elem_of_In, list_elem_of_filter.
    split; [|apply elem_of_seqZ; nia].
    split; [apply Hdiv | unfold p; lia].
  - apply Hdiv.
Qed.

(** Every received buffer was sent by a row peer and carries that peer's
    degree vectors for this host's column. *)
Lemma received_buffer m :
  m ∈ metaInbox h g ->
  exists p, 0 <= p < numHosts h /\ rowPeer h p /\
            m = bufferFor h g (gridColumnID h (id h)) p.
Proof.
  rewrite metaInbox_eq, list_elem_of_In, in_map_iff.
  intros (p & <- & [Hrow Hp%elem_of_seqZ]%list_elem_of_In%list_elem_of_filter).
  exists p. split; [lia | done].
Qed.

End Inbox.

Lemma exchange_degreesFit h g ins :
  wfHost h -> exchange h (metaInbox h g) (inspect h g) = Ok ins ->
  degreesFit h ins.
Proof.
  intros Hwf. unfold exchange.
  destruct (receiveBuffers h _ (metaInbox h g) (inspect h g)) as [merged|]
    eqn:Hrecv; [cbn|done].
  intros [= <-]. apply receiveBuffers_all in Hrecv as ->.
  2:{ rewrite (metaInbox_eq h Hwf), length_map. apply (rowPeers_length h Hwf). }
  pose proof (wf_columns h Hwf) as HC. pose proof (wf_factor h Hwf) as HD.
  destruct (id_split h Hwf) as (Hid & Hcol & Hrow & Hfit).
  intros d i Hd%elem_of_decomposition Hi%elem_of_columns.
  unfold outDegrees, orReduce. cbn [numOutgoingEdges].
  apply (merge_all_degrees h Hwf
           (fun v => length v = length (sourcesOf h (leaderOf h d + i))));
    [apply inspect_shaped; lia | done | done | |].
  - intros m (p & Hp & [Hprow Hpne] & ->)%(received_buffer h Hwf). cbn [sender].
    intros Hslot. change (p mod numColumnHosts h = i) in Hslot.
    unfold bufferFor. cbn [degrees]. unfold decomposition.
    rewrite at_map_seqZ by done.
    change (length (outDegrees (inspect (onHost h p) g) d
                      (gridColumnID h (id h)))
            = length (sourcesOf h (leaderOf h d + i))).
    rewrite inspect_degrees_length by done.
    change (rangeSize (onHost h p) (ownVirtual (onHost h p) d))
      with (rangeSize h (p + d * numHosts h)).
    rewrite (rangeSize_length h _ Hwf). do 2 f_equal.
    rewrite (leaderOf_eq h Hwf).
    destruct (div_mod_columns h Hwf p) as [Hpeq _].
    unfold gridColumnID in Hpeq. rewrite Hslot, Hprow in Hpeq. lia.
  - destruct (decide (i = gridColumnID h (id h))) as [->|Hne].
    + left. fold (outDegrees (inspect h g) d (gridColumnID h (id h))).
      rewrite inspect_degrees_length by done.
      by rewrite (rangeSize_length h _ Hwf), (leader_own h Hwf).
    + right. by apply peer_buffer_received.
Qed.

(** ** The local index holds every global id at most once *)

Lemma loadStatistics_distinct (h : Host) (g : Graph) (l : Local) :
  wfHost h -> loadStatistics h g = Ok l ->
  NoDup (localToGlobalVector l) /\
  numNodes l = Z.of_nat (length (localToGlobalVector l)).
Proof.
  intros Hwf. unfold loadStatistics.
  destruct (exchange h (metaInbox h g) (inspect h g)) as [ins|] eqn:Hex;
    [cbn|done].
  intros Hlayout. apply (layout_distinct h ins l Hwf); [|done].
  by apply (exchange_degreesFit h g).
Qed.

(** The host the constructor sets up is well formed. *)
Lemma mkHost_wf t nd host hosts g ranges f :
  0 <= host < hosts -> 1 <= DecomposeFactor t ->
  hosts * DecomposeFactor t < 2 ^ 32 ->
  Z.of_nat (length g) < 2 ^ 32 ->
  Z.of_nat (length ranges) = hosts * DecomposeFactor t ->
  contiguousCover ranges (Z.of_nat (length g)) ->
  factorizeHosts t nd hosts = Ok f ->
  wfHost (mkHost t nd host hosts g ranges f).
Proof.
  intros Hhost HD Hfit Hn Hlen Hcov Hf.
  destruct (factorPair_spec nd hosts ltac:(lia))
    as (r & c & Hp & (Hc & Hdiv & _) & Hr & Hle & Hrc).
  unfold factorizeHosts in Hf. rewrite Hp in Hf. cbn in Hf.
  assert (r <= hosts /\ c <= hosts) as [HrH HcH] by nia.
  constructor; cbn; try done; try lia;
    destruct (moreColumnHosts t); cbn in Hf; injection Hf as <-; cbn;
    rewrite ?u32_small by nia; try lia; try nia.
  - exists c. lia.
  - done.
Qed.

(** C5. On every host, for every input graph, every grid that
    [factorizeHosts] yields (checkerboard or not, rows and columns swapped
    or not, any decompose factor), every contiguous block map and both
    builds: when [loadStatistics] completes, no global id occurs twice in
    [localToGlobalVector], and [numNodes] is the length of the vector.
    (Host counts and node counts are those that fit the 32-bit variables
    of the source.) *)
Theorem local_index_distinct (t : TParams) (nd : bool) (host hosts : Z)
    (g : Graph) (ranges : list (Z * Z)) (f : Factors) (l : Local) :
  0 <= host < hosts -> 1 <= DecomposeFactor t ->
  hosts * DecomposeFactor t < 2 ^ 32 ->
  Z.of_nat (length g) < 2 ^ 32 ->
  Z.of_nat (length ranges) = hosts * DecomposeFactor t ->
  contiguousCover ranges (Z.of_nat (length g)) ->
  factorizeHosts t nd hosts = Ok f ->
  loadStatistics (mkHost t nd host hosts g ranges f) g = Ok l ->
  NoDup (localToGlobalVector l) /\
  numNodes l = Z.of_nat (length (localToGlobalVector l)).
Proof.
  intros Hhost HD Hfit Hn Hlen Hcov Hf.
  apply loadStatistics_distinct. by apply mkHost_wf.
Qed.

Lemma local_index_distinct_witness :
  exists l,
    loadStatistics (mkHost tpPlain false 0 4 completeK3 rangesK3 f2x2)
                   completeK3 = Ok l /\
    NoDup (localToGlobalVector l) /\
    numNodes l = Z.of_nat (length (localToGlobalVector l)).
Proof.
  eexists. split; [vm_compute; reflexivity|].
  apply (local_index_distinct tpPlain false 0 4 completeK3 rangesK3 f2x2);
    [lia | cbn; lia | cbn; lia | cbn; lia | reflexivity | cbn; lia
    | reflexivity | vm_compute; reflexivity].
Defined.

(** ** Block map queries on a contiguous cover *)

Lemma inRange_sourcesOf h v x :
  inRange x (rangeOf h v) = true <-> x ∈ sourcesOf h v.
Proof.
  rewrite elem_of_sourcesOf. unfold inRange.
  rewrite andb_true_iff, Z.leb_le, Z.ltb_lt. done.
Qed.

(** [getHostID] finds the virtual host whose range holds the node. *)
Lemma getHostID_in_range h v x :
  wfHost h -> 0 <= v < numVirtualHosts h -> x ∈ sourcesOf h v ->
  getHostID h x = v.
Proof.
  intros Hwf Hv Hx. unfold getHostID.
  destruct (find _ _) as [v'|] eqn:Hfind.
  - apply find_some in Hfind as [Hin Hr].
    apply list_elem_of_In, elem_of_seqZ in Hin.
    apply inRange_sourcesOf in Hr.
    destruct (decide (v' = v)) as [|Hne]; [done|]. exfalso.
    apply (sourcesOf_disjoint h v' v x Hwf); [lia | lia | done..].
  - exfalso.
    assert (Hin : In v (seqZ 0 (numVirtualHosts h)))
      by (apply list_elem_of_In, elem_of_seqZ; lia).
    pose proof (find_none _ _ Hfind v Hin) as Hr. cbn beta in Hr.
    apply inRange_sourcesOf in Hx. congruence.
Qed.

(** Every node below [numGlobalNodes] lies in the range of some virtual
    host. *)
Lemma chained_covers ranges : forall s n x,
  chained s ranges n -> s <= x < n ->
  exists a r, ranges !! a = Some r /\ r.1 <= x < r.2.
Proof.
  induction ranges as [|r0 ranges IH]; intros s n x Hc Hx; cbn in Hc; [lia|].
  destruct Hc as (E & Hle & Hc).
  destruct (decide (x < r0.2)).
  - exists 0%nat, r0. split; [done | lia].
  - destruct (IH r0.2 n x Hc ltac:(lia)) as (a & r & Ha & Hr).
    exists (S a), r. done.
Qed.

Lemma node_has_host h x :
  wfHost h -> 0 <= x < numGlobalNodes h ->
  exists v, 0 <= v < numVirtualHosts h /\ x ∈ sourcesOf h v.
Proof.
  intros Hwf Hx.
  destruct (chained_covers _ _ _ _ (wf_cover h Hwf) Hx) as (a & r & Ha & Hr).
  exists (Z.of_nat a). pose proof (lookup_lt_Some _ _ _ Ha).
  pose proof (wf_count h Hwf). split; [lia|].
  apply elem_of_sourcesOf. unfold rangeOf. rewrite at_lookup, Nat2Z.id, Ha.
  done.
Qed.


(** ** The column index without decomposition *)

Lemma indexOf_app_notin x l1 l2 :
  x ∉ l1 ->
  indexOf x (l1 ++ l2) = (fun k => Z.of_nat (length l1) + k) <$> indexOf x l2.
Proof.
  induction l1 as [|y l1 IH]; intros Hx.
  - cbn. by destruct (indexOf x l2).
  - cbn [app indexOf]. destruct (Z.eqb_spec x y) as [->|Hne].
    + exfalso. apply Hx. by left.
    + rewrite IH by (intros ?; apply Hx; by right).
      destruct (indexOf x l2); cbn; [f_equal; lia | done].
Qed.

Lemma indexOf_seqZ x s n rest :
  s <= x < s + n -> indexOf x (seqZ s n ++ rest) = Some (x - s).
Proof.
  intros Hx. replace n with (Z.of_nat (Z.to_nat n)) in * by lia.
  revert s Hx. induction (Z.to_nat n) as [|k IH]; intros s Hx; [lia|].
  rewrite seqZ_cons by lia. cbn [app indexOf].
  destruct (Z.eqb_spec x s) as [->|Hne]; [f_equal; lia|].
  replace (Z.pred (Z.of_nat (S k))) with (Z.of_nat k) by lia.
  rewrite IH by lia. cbn. f_equal. lia.
Qed.

Lemma seqZ_one m : seqZ m 1 = [m].
Proof. rewrite seqZ_cons by lia. by rewrite seqZ_nil. Qed.

Section ColumnIndex.
Context (h : Host) (Hwf : wfHost h) (Hflat : DecomposeFactor (tp h) = 1).

Lemma flat_virtual : numVirtualHosts h = numHosts h.
Proof. rewrite (wf_virtual h Hwf), Hflat. lia. Qed.

Lemma range_order v w :
  0 <= v < w -> w < numVirtualHosts h ->
  (rangeOf h v).1 <= (rangeOf h v).2 /\ (rangeOf h v).2 <= (rangeOf h w).1.
Proof.
  intros Hv Hw. pose proof (wf_count h Hwf) as Hcount.
  destruct (lookup_lt_is_Some_2 (gid2host h) (Z.to_nat v) ltac:(lia))
    as [rv Hrv].
  destruct (lookup_lt_is_Some_2 (gid2host h) (Z.to_nat w) ltac:(lia))
    as [rw Hrw].
  unfold rangeOf. rewrite !at_lookup, Hrv, Hrw. unfold default. cbn.
  pose proof (chained_ordered _ _ _ (Z.to_nat v) (Z.to_nat w) _ _
                (wf_cover h Hwf) ltac:(lia) Hrv Hrw).
  pose proof (chained_bounds _ _ _ _ _ (wf_cover h Hwf) Hrv). lia.
Qed.

Lemma range_before v w x :
  0 <= v < w -> w < numVirtualHosts h -> x ∈ sourcesOf h v ->
  x < (rangeOf h w).1.
Proof.
  intros Hv Hw Hx%elem_of_sourcesOf.
  pose proof (range_order v w Hv Hw). lia.
Qed.

Lemma range_start_nonneg v : 0 <= (rangeOf h v).1.
Proof.
  destruct (rangeOf_lookup h v) as [(r & Hr & E)|E]; rewrite E; [|done].
  apply (chained_bounds _ _ _ _ _ (wf_cover h Hwf) Hr).
Qed.

Lemma columnPrefix_succ col a :
  0 <= a < numHosts h ->
  columnPrefix h col (a + 1)
  = columnPrefix h col a
    ++ (if getColumnHostIDOfBlock h a =? col then sourcesOf h a else []).
Proof.
  intros Ha. unfold columnPrefix.
  rewrite (seqZ_app 0 a 1) by lia. rewrite flat_map_app.
  rewrite Z.add_0_l, seqZ_one. cbn [flat_map]. rewrite Z.mod_small by lia. by rewrite app_nil_r.
Qed.

Lemma columnPrefix_elem col a x :
  0 <= a -> x ∈ columnPrefix h col a ->
  exists b, 0 <= b < a /\ x ∈ sourcesOf h b.
Proof.
  intros Ha (b & Hb%elem_of_seqZ & Hx)%elem_of_flat_map.
  destruct (_ =? _); [|by apply elem_of_nil in Hx]. exists b. split; [lia|done].
Qed.

Lemma columnPrefix_NoDup col a : 0 <= a -> NoDup (columnPrefix h col a).
Proof.
  intros Ha. unfold columnPrefix. apply NoDup_flat_map; [apply NoDup_seqZ | |].
  - intros b _. destruct (_ =? _); [apply NoDup_seqZ | constructor].
  - intros b b' x Hb%elem_of_seqZ Hb'%elem_of_seqZ Hx Hx'.
    destruct (_ =? _) in Hx; [|by apply elem_of_nil in Hx].
    destruct (_ =? _) in Hx'; [|by apply elem_of_nil in Hx'].
    destruct (decide (b = b')); [done|]. exfalso.
    apply (sourcesOf_disjoint h b b' x Hwf); [lia | lia | done..].
Qed.

Lemma columnPrefix_length col v :
  0 <= v < numVirtualHosts h ->
  Z.of_nat (length (columnPrefix h col v)) <= (rangeOf h v).1.
Proof.
  intros Hv.
  assert (Hin : forall x, x ∈ columnPrefix h col v ->
                          x ∈ seqZ 0 (rangeOf h v).1).
  { intros x (b & Hb & Hx)%columnPrefix_elem; [|lia].
    pose proof (sourcesOf_bounds h b x Hwf Hx).
    pose proof (range_before b v x ltac:(lia) ltac:(lia) Hx).
    apply elem_of_seqZ. lia. }
  pose proof (submseteq_length _ _
    (NoDup_submseteq _ _ (columnPrefix_NoDup col v ltac:(lia)) Hin)) as Hlen.
  rewrite length_seqZ in Hlen.
  pose proof (range_start_nonneg v). lia.
Qed.

(** The loop of [getColumnIndex] from block [v - n] on, for a node of the
    range of [v]. *)
Lemma columnIndexLoop_spec gid v (n : nat) acc :
  0 <= v < numHosts h -> Z.of_nat n <= v -> gid ∈ sourcesOf h v ->
  columnIndexLoop h gid (getColumnHostIDOfBlock h v)
    (seqZ (v - Z.of_nat n) (Z.of_nat n + 1)) acc
  = u32 (acc
         + Z.of_nat (length (columnPrefix h (getColumnHostIDOfBlock h v) v))
         - Z.of_nat (length (columnPrefix h (getColumnHostIDOfBlock h v)
                               (v - Z.of_nat n)))
         + (gid - (rangeOf h v).1)).
Proof.
  intros Hv Hn Hgid. pose proof (wf_nodes h Hwf) as HN.
  pose proof (sourcesOf_bounds h v gid Hwf Hgid) as Hbound.
  pose proof Hgid as Hrange%elem_of_sourcesOf.
  pose proof (range_start_nonneg v) as Hstart.
  revert acc. induction n as [|n IH]; intros acc.
  - cbn [Z.of_nat]. rewrite Z.sub_0_r, Z.add_0_l, seqZ_one.
    cbn [columnIndexLoop]. rewrite Z.eqb_refl.
    destruct (rangeOf h v) as [s e] eqn:E. cbn [fst snd] in *.
    replace (gid <? e) with true by (symmetry; apply Z.ltb_lt; lia).
    rewrite u64_small by lia. f_equal. lia.
  - replace (Z.of_nat (S n) + 1) with (Z.succ (Z.of_nat n + 1)) by lia.
    rewrite seqZ_cons by lia. rewrite Z.pred_succ.
    replace (Z.succ (v - Z.of_nat (S n))) with (v - Z.of_nat n) by lia.
    cbn [columnIndexLoop].
    set (a := v - Z.of_nat (S n)).
    assert (Ha : 0 <= a < v) by (unfold a; lia).
    replace (v - Z.of_nat n) with (a + 1) in * by (unfold a; lia).
    destruct (getColumnHostIDOfBlock h a =? getColumnHostIDOfBlock h v) eqn:Ec.
    + destruct (rangeOf h a) as [s e] eqn:E.
      assert (Hsize : 0 <= e - s /\ e <= gid /\ e - s < 2 ^ 64).
      { pose proof (range_order a v ltac:(lia)
                      ltac:(rewrite flat_virtual; lia)) as Ho.
        pose proof (range_start_nonneg a) as Hs.
        rewrite E in Ho, Hs. cbn [fst snd] in Ho, Hs. lia. }
      replace (gid <? e) with false by (symmetry; apply Z.ltb_ge; lia).
      rewrite IH by lia. rewrite u64_small by lia.
      rewrite (columnPrefix_succ _ a), Ec by lia.
      rewrite length_app. unfold sourcesOf. rewrite E, length_seqZ.
      cbn [fst snd].
      set (L := Z.of_nat (length (columnPrefix h (getColumnHostIDOfBlock h v) v))).
      set (La := length (columnPrefix h (getColumnHostIDOfBlock h v) a)).
      replace (u32 (acc + (e - s)) + L - Z.of_nat (La + Z.to_nat (e - s))
               + (gid - (rangeOf h v).1))
        with (u32 (acc + (e - s))
              + (L - Z.of_nat (La + Z.to_nat (e - s)) + (gid - (rangeOf h v).1)))
        by lia.
      rewrite u32_u32_add. f_equal. lia.
    + rewrite IH by lia.
      rewrite (columnPrefix_succ _ a), Ec by lia. rewrite app_nil_r. done.
Qed.

(** With decompose factor 1 the column index of every node is its offset in
    the concatenation, in block order, of the ranges of its column. *)
Lemma getColumnIndex_offset gid :
  0 <= gid < numGlobalNodes h ->
  columnOffset h gid = Some (getColumnIndex h gid).
Proof.
  intros Hgid. pose proof (wf_nodes h Hwf) as HN.
  destruct (node_has_host h gid Hwf Hgid) as (v & Hv & Hin).
  pose proof (getHostID_in_range h v gid Hwf Hv Hin) as Hhost.
  rewrite flat_virtual in Hv.
  unfold columnOffset, getColumnIndex, getColumnHostID, getBlockID.
  rewrite Hhost, Z.mod_small by lia.
  pose proof (columnIndexLoop_spec gid v (Z.to_nat v) 0 Hv ltac:(lia) Hin)
    as Hloop.
  rewrite Z2Nat.id in Hloop by lia. rewrite Z.sub_diag in Hloop.
  change (columnPrefix h (getColumnHostIDOfBlock h v) 0) with (@nil Z) in Hloop.
  cbn [length Z.of_nat] in Hloop.
  rewrite Hloop. clear Hloop.
  pose proof (columnPrefix_length (getColumnHostIDOfBlock h v) v
                ltac:(rewrite flat_virtual; lia)) as Hlen.
  pose proof Hin as Hrange%elem_of_sourcesOf.
  rewrite u32_small by lia.
  unfold columnMembers. rewrite flat_virtual.
  replace (numHosts h) with ((v + 1) + (numHosts h - v - 1)) at 1 by lia.
  unfold columnPrefix at 1. rewrite seqZ_app, flat_map_app by lia.
  fold (columnPrefix h (getColumnHostIDOfBlock h v) (v + 1)).
  rewrite (columnPrefix_succ _ v) by lia. rewrite Z.eqb_refl, <- app_assoc.
  rewrite indexOf_app_notin.
  - unfold sourcesOf at 1. rewrite indexOf_seqZ by lia. cbn. f_equal. lia.
  - intros (b & Hb & Hx)%columnPrefix_elem; [|lia].
    pose proof (range_before b v gid ltac:(lia)
                  ltac:(rewrite flat_virtual; lia) Hx). lia.
Qed.

End ColumnIndex.

(** ** Scenarios of the specification, run on the embedding *)

(** Complete digraph on three nodes, 2 x 2 grid: every host finishes and
    each of the six edges is constructed on exactly one host. *)
Example complete_digraph_on_grid (nd : bool) :
  map (fun x => constructedBy
                  (construct tpPlain nd x 4 completeK3 rangesK3 false))
      (seqZ 0 4)
  = [[(0, 2); (1, 0); (1, 2)]; [(0, 1)]; [(2, 0)]; [(2, 1)]].
Proof. destruct nd; vm_compute; reflexivity. Qed.

(** The same graph yields the mirror lists used in [k3Mirrors]. *)
Example complete_digraph_mirrors (x : Z) :
  x ∈ seqZ 0 4 ->
  exists p, construct tpPlain false x 4 completeK3 rangesK3 false = Ok p /\
            mirrorNodes (tables p) = k3Mirrors x.
Proof.
  intros Hx. apply elem_of_seqZ in Hx.
  assert (x = 0 \/ x = 1 \/ x = 2 \/ x = 3) as [-> | [-> | [-> | ->]]] by lia;
    (eexists; split; [vm_compute; reflexivity | reflexivity]).
Qed.

(** Checkerboard, 2 x 2, two disconnected edges: host 0 materialises node 1
    as a dummy outgoing node. *)
Example checkerboard_dummy_node :
  exists p, construct tpChecker false 0 4 twoEdges ranges4 false = Ok p /\
            dummyOutgoingNodes (loc p) = 1 /\
            localToGlobalVector (loc p) = [0; 1] /\
            built (graph p) = [(0, 1)].
Proof. eexists. split; [vm_compute; reflexivity|]. done. Qed.

(** Self-loops on two hosts: each host owns one master, constructs its
    loop itself and sends nothing. *)
Example self_loops_stay_home (x : Z) :
  x ∈ seqZ 0 2 ->
  exists p, construct tpPlain false x 2 selfLoops [(0, 1); (1, 2)] false = Ok p /\
            numOwned (loc p) = 1 /\ built (graph p) = [(x, x)] /\
            outbound (env p) selfLoops = [].
Proof.
  intros Hx. apply elem_of_seqZ in Hx.
  assert (x = 0 \/ x = 1) as [-> | ->] by lia;
    (eexists; split; [vm_compute; reflexivity|]); vm_compute; done.
Qed.

(** * Further properties of the code *)

Lemma hostK3_wf : wfHost hostK3.
Proof.
  apply mkHost_wf; [lia | cbn; lia | cbn; lia | cbn; lia | reflexivity
                   | cbn; lia | reflexivity].
Qed.

(** ** Block map queries *)

(** X1. On a contiguous block map, [getHostID] answers for every node below
    [numGlobalNodes] a virtual host whose range holds the node: the loop
    never falls through to its trailing [assert(false)]. *)
Theorem getHostID_covers (h : Host) (gid : Z) :
  wfHost h -> 0 <= gid < numGlobalNodes h ->
  0 <= getHostID h gid < numVirtualHosts h /\
  inRange gid (rangeOf h (getHostID h gid)) = true.
Proof.
  intros Hwf Hg. destruct (node_has_host h gid Hwf Hg) as (v & Hv & Hin).
  rewrite (getHostID_in_range h v gid Hwf Hv Hin). split; [done|].
  by apply inRange_sourcesOf.
Qed.

Lemma getHostID_covers_witness :
  0 <= getHostID hostK3 2 < numVirtualHosts hostK3 /\
  inRange 2 (rangeOf hostK3 (getHostID hostK3 2)) = true.
Proof. apply (getHostID_covers hostK3 2 hostK3_wf). cbn. lia. Defined.

Lemma isOwned_onHost h x gid :
  isOwned (onHost h x) gid = true <->
  exists d, 0 <= d < DecomposeFactor (tp h) /\
            gid ∈ sourcesOf h (x + d * numHosts h).
Proof.
  unfold isOwned. rewrite existsb_exists. split.
  - intros (d & Hd%list_elem_of_In%elem_of_decomposition & Hr).
    exists d. split; [done|]. by apply inRange_sourcesOf in Hr.
  - intros (d & Hd & Hin). exists d. split.
    + apply list_elem_of_In, elem_of_decomposition. done.
    + by apply inRange_sourcesOf.
Qed.

(** X2. Every node is owned by exactly one real host, the block id of the
    node: [isOwned] on host [x] holds for [gid] exactly when
    [x = getBlockID gid]. *)
Theorem owner_unique (h : Host) (gid x : Z) :
  wfHost h -> 0 <= gid < numGlobalNodes h -> 0 <= x < numHosts h ->
  isOwned (onHost h x) gid = true <-> x = getBlockID h gid.
Proof.
  intros Hwf Hg Hx. rewrite isOwned_onHost. unfold getBlockID.
  pose proof (wf_virtual h Hwf) as Hnv. pose proof (wf_factor h Hwf) as HD.
  split.
  - intros (d & Hd & Hin).
    rewrite (getHostID_in_range h (x + d * numHosts h) gid Hwf); [|nia|done].
    rewrite Z.mod_add, Z.mod_small; lia.
  - intros ->. destruct (getHostID_covers h gid Hwf Hg) as [Hv Hr].
    apply inRange_sourcesOf in Hr. set (v := getHostID h gid) in *.
    exists (v / numHosts h).
    assert (0 < numHosts h) by lia.
    pose proof (Z.div_mod v (numHosts h) ltac:(lia)).
    split.
    + split; [apply Z.div_pos; lia|]. apply Z.div_lt_upper_bound; lia.
    + replace (v mod numHosts h + v / numHosts h * numHosts h) with v by lia.
      done.
Qed.

Lemma owner_unique_witness :
  isOwned (onHost hostK3 1) 1 = true <-> 1 = getBlockID hostK3 1.
Proof. apply (owner_unique hostK3 1 1 hostK3_wf); cbn; lia. Defined.

Lemma rows_positive h : wfHost h -> 1 <= numRowHosts h.
Proof.
  intros Hwf. pose proof (wf_grid h Hwf). pose proof (wf_columns h Hwf).
  pose proof (wf_factor h Hwf). pose proof (wf_id h Hwf). nia.
Qed.

Lemma columnOfBlock_bounds h b :
  wfHost h -> 0 <= b < numHosts h ->
  0 <= getColumnHostIDOfBlock h b < numColumnHosts h.
Proof.
  intros Hwf Hb. unfold getColumnHostIDOfBlock.
  pose proof (rows_positive h Hwf). pose proof (wf_columns h Hwf).
  pose proof (wf_grid h Hwf). pose proof (wf_factor h Hwf).
  destruct (columnBlocked (tp h)).
  - split; [apply Z.div_pos; lia|]. apply Z.div_lt_upper_bound; nia.
  - apply Z.mod_pos_bound. lia.
Qed.

(** X3. The column of a node is one of the [numColumnHosts] columns, so
    the vectors indexed with it during inspection ([hasIncomingEdge],
    [numOutgoingEdges[d]], [gdst_vec]) are indexed in range. *)
Theorem getColumnHostID_bounds (h : Host) (gid : Z) :
  wfHost h -> 0 <= getColumnHostID h gid < numColumnHosts h.
Proof.
  intros Hwf. apply columnOfBlock_bounds; [done|].
  unfold getBlockID. apply Z.mod_pos_bound. pose proof (wf_id h Hwf). lia.
Qed.

Lemma getColumnHostID_bounds_witness :
  0 <= getColumnHostID hostK3 2 < numColumnHosts hostK3.
Proof. apply (getColumnHostID_bounds hostK3 2 hostK3_wf). Defined.

(** X5. Transposing the graph exchanges the roles of sources and
    destinations in [isNotCommunicationPartner]: the answer of the
    transposed host, calls on the bit-vector flag included, is the answer of
    the original one for the exchanged write and read locations. *)
Theorem transposed_swaps_locations (h : Host) (p : Z) (s : SyncType)
    (w : WriteLocation) (r : ReadLocation) :
  transposed h = false ->
  isNotCommunicationPartner (setTransposed h) p s w r
  = isNotCommunicationPartner h p s (swapWrite w) (swapRead r).
Proof.
  intros Ht. unfold isNotCommunicationPartner. rewrite Ht. cbn [transposed setTransposed].
  destruct s, w, r; reflexivity.
Qed.

Lemma transposed_swaps_locations_witness :
  isNotCommunicationPartner (setTransposed hostK3) 1 syncReduce writeSource
                            readAny
  = isNotCommunicationPartner hostK3 1 syncReduce writeDestination readAny.
Proof.
  apply (transposed_swaps_locations hostK3 1 syncReduce writeSource readAny).
  reflexivity.
Defined.

(** X6. Outside checkerboard mode, asking [nothingToSend] with the
    locations [writeAny]/[readAny] about a host that shares nodes but lies
    neither in the row nor in the column of this host stops on the
    assertion of [isNotCommunicationPartner]; a build with NDEBUG answers
    that there is nothing to send. *)
Theorem any_location_outside_cross (h : Host) (t : ReplicaTables) (p : Z)
    (s : SyncType) (nodes : list Z) :
  columnBlocked (tp h) = false ->
  sendList s t !! Z.to_nat p = Some nodes -> nodes <> [] ->
  ~ sameRow h p -> ~ sameColumn h p ->
  ret (nothingToSend h t p s writeAny readAny)
  = if ndebug h then Ok true else Abort AssertionFailed.
Proof.
  intros Hcb Hl Hne Hrow Hcol.
  unfold nothingToSend, sharedPolicy.
  replace (match s with syncReduce => mirrorNodes t | syncBroadcast => masterNodes t end)
    with (sendList s t) by (by destruct s).
  rewrite Hl, Hcb.
  destruct nodes as [|n nodes]; [done|]. cbn [length].
  replace (0 <? Z.of_nat (S (length nodes))) with true by (symmetry; apply Z.ltb_lt; lia).
  unfold isNotCommunicationPartner, anyArm, assertR.
  unfold sameRow, sameColumn in *.
  apply Z.eqb_neq in Hrow, Hcol. rewrite Hrow, Hcol.
  destruct (transposed h), s, (ndebug h); reflexivity.
Qed.

Lemma any_location_outside_cross_witness :
  ret (nothingToSend hostK3 tablesFor3 3 syncReduce writeAny readAny)
  = Abort AssertionFailed.
Proof.
  apply (any_location_outside_cross hostK3 tablesFor3 3 syncReduce [2]);
    [reflexivity | reflexivity | done | vm_compute; done | vm_compute; done].
Defined.

(** ** Vertex cut, mirror ranges *)

(** X7. With the default orientation, the grid of [factorizeHosts] is
    reported as an edge cut ([is_vertex_cut] false) exactly when the host
    count has no divisor between 2 and its square root, that is, when the
    grid has a single column. *)
Theorem is_vertex_cut_default (t : TParams) (nd : bool) (H host : Z)
    (g : Graph) (ranges : list (Z * Z)) (f : Factors) :
  1 <= H -> 1 <= DecomposeFactor t -> H * DecomposeFactor t < 2 ^ 32 ->
  moreColumnHosts t = false ->
  factorizeHosts t nd H = Ok f ->
  is_vertex_cut (mkHost t nd host H g ranges f) = false <->
  (forall c, 1 < c -> (c | H) -> Z.sqrt H < c).
Proof.
  intros HH HD Hfit Hmore Hf.
  destruct (factorPair_spec nd H HH)
    as (r & c & Hp & (Hc & Hdiv & Hsq & Hmax) & Hr & Hle & Hrc).
  unfold factorizeHosts in Hf. rewrite Hp, Hmore in Hf. cbn in Hf.
  injection Hf as <-. unfold is_vertex_cut. cbn. rewrite Hmore.
  rewrite u32_small by nia.
  assert (Hiff : (r * DecomposeFactor t =? 1) || (c =? 1) = true <-> c = 1).
  { rewrite orb_true_iff, !Z.eqb_eq. split; [|by auto]. intros [E|E]; nia. }
  destruct ((r * DecomposeFactor t =? 1) || (c =? 1)) eqn:E.
  - split; [|done]. intros _ c' Hc' Hd.
    destruct (Z.le_gt_cases c' (Z.sqrt H)) as [Hs|Hs]; [|lia].
    specialize (Hmax c' ltac:(lia) Hd Hs). destruct Hiff as [Hc1 _].
    specialize (Hc1 eq_refl). lia.
  - split; [done|]. intros Hall. exfalso.
    assert (c <> 1) by (intros E1; apply Hiff in E1; congruence).
    specialize (Hall c ltac:(lia) Hdiv). lia.
Qed.

Lemma is_vertex_cut_default_witness :
  is_vertex_cut (mkHost tpPlain false 0 4 completeK3 rangesK3 f2x2) = false
  <-> (forall c, 1 < c -> (c | 4) -> Z.sqrt 4 < c).
Proof.
  apply (is_vertex_cut_default tpPlain false 4 0 completeK3 rangesK3 f2x2);
    [lia | cbn; lia | cbn; lia | reflexivity | reflexivity].
Defined.

(** X8. With rows and columns swapped ([moreColumnHosts]), the only grid
    not reported as a vertex cut is the single host without
    decomposition. *)
Theorem is_vertex_cut_swapped (t : TParams) (nd : bool) (H host : Z)
    (g : Graph) (ranges : list (Z * Z)) (f : Factors) :
  1 <= H -> 1 <= DecomposeFactor t -> H * DecomposeFactor t < 2 ^ 32 ->
  moreColumnHosts t = true ->
  factorizeHosts t nd H = Ok f ->
  is_vertex_cut (mkHost t nd host H g ranges f) = false <->
  H = 1 /\ DecomposeFactor t = 1.
Proof.
  intros HH HD Hfit Hmore Hf.
  destruct (factorPair_spec nd H HH)
    as (r & c & Hp & (Hc & Hdiv & Hsq & Hmax) & Hr & Hle & Hrc).
  unfold factorizeHosts in Hf. rewrite Hp, Hmore in Hf. cbn in Hf.
  injection Hf as <-. unfold is_vertex_cut. cbn. rewrite Hmore.
  rewrite u32_small by nia.
  destruct ((c * DecomposeFactor t =? 1) && (r =? 1)) eqn:E.
  - apply andb_true_iff in E as [E1%Z.eqb_eq E2%Z.eqb_eq].
    split; [|done]. intros _. nia.
  - split; [done|]. intros [-> E2]. exfalso.
    assert (c = 1 /\ r = 1) as [-> ->] by nia. rewrite E2 in E. done.
Qed.

Lemma is_vertex_cut_swapped_witness :
  is_vertex_cut (mkHost tpSwapped false 0 1 selfLoops [(0, 2)] f1x1) = false
  <-> 1 = 1 /\ DecomposeFactor tpSwapped = 1.
Proof.
  apply (is_vertex_cut_swapped tpSwapped false 1 0 selfLoops [(0, 2)] f1x1);
    [lia | cbn; lia | cbn; lia | reflexivity | reflexivity].
Defined.

(** X9. [getMirrorRanges] covers exactly the local ids outside the block
    of masters [beginMaster, beginMaster + numOwned). *)
Theorem mirror_ranges_complement (p : Partition) (lid : Z) :
  0 <= beginMaster p -> 0 <= numOwned (loc p) ->
  beginMaster p + numOwned (loc p) <= numNodes (loc p) < 2 ^ 32 ->
  (exists r, r ∈ getMirrorRanges p /\ r.1 <= lid < r.2) <->
  0 <= lid < numNodes (loc p) /\
  ~ (beginMaster p <= lid < beginMaster p + numOwned (loc p)).
Proof.
  intros Hb Ho Hn. unfold getMirrorRanges.
  rewrite !u32_small by lia.
  destruct (Z.ltb_spec 0 (beginMaster p)) as [B|B];
    destruct (Z.ltb_spec (beginMaster p + numOwned (loc p)) (numNodes (loc p)))
      as [E|E]; cbn [app]; split.
  all: try (intros (r & Hr & Hl); set_unfold in Hr;
            destruct_or?; subst; cbn in *; try done; lia).
  all: intros [Hl Hout].
  - destruct (Z.lt_ge_cases lid (beginMaster p)).
    + eexists; split; [by left | cbn; lia].
    + eexists; split; [right; by left | cbn; lia].
  - eexists; split; [by left | cbn; lia].
  - eexists; split; [by left | cbn; lia].
  - lia.
Qed.

Lemma mirror_ranges_complement_witness :
  (exists r, r ∈ getMirrorRanges oneMaster /\ r.1 <= 2 < r.2) <->
  0 <= 2 < numNodes (loc oneMaster) /\
  ~ (beginMaster oneMaster <= 2
     < beginMaster oneMaster + numOwned (loc oneMaster)).
Proof. apply (mirror_ranges_complement oneMaster 2); cbn; lia. Defined.

(** X10. For a reduction, [reset_bitset] resets the ranges of
    [getMirrorRanges] (with inclusive bounds) when the host owns a node;
    a host that owns none resets nothing, whatever mirrors it holds. *)
Theorem reset_bitset_reduce (p : Partition) :
  0 <= beginMaster p -> 0 <= numOwned (loc p) ->
  beginMaster p + numOwned (loc p) <= numNodes (loc p) < 2 ^ 32 ->
  reset_bitset p syncReduce
  = if numOwned (loc p) =? 0 then []
    else map (fun r => (r.1, r.2 - 1)) (getMirrorRanges p).
Proof.
  intros Hb Ho Hn. unfold reset_bitset, getMirrorRanges.
  destruct (Z.eqb_spec (numOwned (loc p)) 0) as [E|E]; cbn [negb]; [done|].
  rewrite !u32_small by lia.
  destruct (0 <? beginMaster p);
    destruct (beginMaster p + numOwned (loc p) <? numNodes (loc p));
    reflexivity.
Qed.

Lemma reset_bitset_reduce_witness :
  reset_bitset oneMaster syncReduce
  = if numOwned (loc oneMaster) =? 0 then []
    else map (fun r => (r.1, r.2 - 1)) (getMirrorRanges oneMaster).
Proof. apply (reset_bitset_reduce oneMaster); cbn; lia. Defined.

(** ** The layout in closed form *)

Lemma createNode_place nd gid k l l' :
  createNode nd gid (prepare k l) = Ok l' -> l' = place l (gid, k).
Proof.
  unfold createNode, assertR. destruct nd; cbn.
  - by intros [= <-].
  - destruct (bool_decide _); cbn; [|done]. by intros [= <-].
Qed.

Lemma forM_place {A : Type} (f : A -> list (Z * Placement))
    (body : A -> Local -> Result Local) xs l l' :
  (forall x a b, x ∈ xs -> body x a = Ok b -> b = foldl place a (f x)) ->
  forM xs body l = Ok l' -> l' = foldl place l (flat_map f xs).
Proof.
  revert l. induction xs as [|x xs IH]; intros l Hstep Hrun; cbn in Hrun.
  - by injection Hrun as <-.
  - destruct (body x l) as [a|] eqn:E; [|done].
    cbn [flat_map]. rewrite foldl_app.
    rewrite <- (Hstep x l a); [| by left | done].
    apply IH; [|done]. intros y a' b Hy. apply Hstep. by right.
Qed.

Lemma forM_place_map {A : Type} (f : A -> Z * Placement)
    (body : A -> Local -> Result Local) xs l l' :
  (forall x a b, x ∈ xs -> body x a = Ok b -> b = place a (f x)) ->
  forM xs body l = Ok l' -> l' = foldl place l (map f xs).
Proof.
  intros Hstep Hrun. apply (forM_place (fun x => [f x])) in Hrun.
  - rewrite Hrun. clear. revert l. induction xs as [|x xs IH]; intros l; [done|].
    cbn. apply IH.
  - intros x a b Hx Hb. cbn. by apply Hstep.
Qed.

Lemma layoutMasters_plan h ins l l' :
  layoutMasters h ins l = Ok l' -> l' = foldl place l (mastersPlan h ins).
Proof.
  unfold layoutMasters, mastersPlan. apply forM_place.
  intros d a b _. apply forM_place_map.
  intros [src n] a' b' _ Hc. by apply (createNode_place (ndebug h) src (withEdges n)).
Qed.

Lemma visitOutgoing_plan h ins i src n l l' :
  visitOutgoing h ins i src n l = Ok l' ->
  l' = foldl place l (outgoingChoice h ins i (src, n)).
Proof.
  unfold visitOutgoing, outgoingChoice. cbn [fst snd].
  destruct (0 <? n).
  { intros Hc. by apply (createNode_place (ndebug h) src (withEdges n)) in Hc as ->. }
  destruct (dummyOutgoingCase h ins i src); [|by intros [= <-]].
  destruct (columnBlocked (tp h)).
  { intros Hc. by apply (createNode_place (ndebug h) src asDummy) in Hc as ->. }
  unfold assertR. destruct (ndebug h); cbn; [|done].
  intros Hc. by apply (createNode_place true src asWarned) in Hc as ->.
Qed.

Lemma layoutOutgoing_plan h ins l l' :
  layoutOutgoing h ins l = Ok l' -> l' = foldl place l (outgoingPlan h ins).
Proof.
  unfold layoutOutgoing, outgoingPlan. apply forM_place.
  intros d a b _. apply forM_place. intros i a' b' _.
  fold (leaderOf h d).
  destruct (virtual2RealHost h (leaderOf h d + i) =? id h);
    [by intros [= <-]|].
  apply forM_place. intros [src n] a'' b'' _. apply visitOutgoing_plan.
Qed.

Lemma layoutIncoming_plan h ins l l' :
  layoutIncoming h ins l = Ok l' -> l' = foldl place l (incomingPlan h ins).
Proof.
  unfold layoutIncoming, incomingPlan. apply forM_place.
  intros i a b _.
  destruct (virtual2RealHost h (incomingPeer h i) =? id h);
    [by intros [= <-]|].
  destruct (columnBlocked (tp h) && inOwnRows h (incomingPeer h i));
    [by intros [= <-]|].
  apply forM_place. intros dst a' b' _.
  destruct (incomingBit h ins dst); [|by intros [= <-]].
  intros Hc. by apply (createNode_place (ndebug h) dst plain) in Hc as ->.
Qed.

(** The layout in closed form. *)
Lemma layout_plan h ins l :
  layout h ins = Ok l ->
  l = foldl place
        (markNodesWithEdges
           (foldl place (emptyLocal (ownedCount h))
                  (mastersPlan h ins ++ outgoingPlan h ins)))
        (incomingPlan h ins).
Proof.
  unfold layout.
  destruct (layoutMasters h ins _) as [l1|] eqn:H1; [cbn|done].
  destruct (layoutOutgoing h ins l1) as [l2|] eqn:H2; [cbn|done].
  intros H3. apply layoutIncoming_plan in H3 as ->.
  apply layoutOutgoing_plan in H2 as ->. apply layoutMasters_plan in H1 as ->.
  by rewrite foldl_app.
Qed.

(** What a sequence of placements does to each member. *)
Lemma place_vector plan l :
  localToGlobalVector (foldl place l plan)
  = localToGlobalVector l ++ plan.*1.
Proof.
  revert l. induction plan as [|[gid k] plan IH]; intros l; cbn [foldl].
  - by rewrite app_nil_r.
  - rewrite IH. cbn. destruct k; cbn; by rewrite <- app_assoc.
Qed.

Lemma prepare_nodes k l :
  localToGlobalVector (prepare k l) = localToGlobalVector l /\
  globalToLocalMap (prepare k l) = globalToLocalMap l /\
  numNodes (prepare k l) = numNodes l /\
  numOwned (prepare k l) = numOwned l /\
  numNodesWithEdges (prepare k l) = numNodesWithEdges l /\
  prefixSumOfEdges (prepare k l) = prefixSumOfEdges l.
Proof. by destruct k. Qed.

Lemma place_count plan l :
  numNodes (foldl place l plan)
  = u32 (numNodes l + Z.of_nat (length plan)) \/
  (plan = [] /\ numNodes (foldl place l plan) = numNodes l).
Proof.
  revert l. induction plan as [|[gid k] plan IH]; intros l; [by right|].
  left. cbn [foldl length]. destruct (IH (place l (gid, k))) as [->|[-> ->]].
  - cbn. destruct (prepare_nodes k l) as (_ & _ & -> & _).
    rewrite u32_u32_add. f_equal. lia.
  - cbn. destruct (prepare_nodes k l) as (_ & _ & -> & _). done.
Qed.

Lemma place_fixed plan l :
  numOwned (foldl place l plan) = numOwned l /\
  numNodesWithEdges (foldl place l plan) = numNodesWithEdges l.
Proof.
  revert l. induction plan as [|[gid k] plan IH]; intros l; [done|].
  cbn [foldl]. destruct (IH (place l (gid, k))) as [-> ->]. cbn.
  by destruct (prepare_nodes k l) as (_ & _ & _ & -> & -> & _).
Qed.

Lemma place_prefix_length plan l :
  length (prefixSumOfEdges l) = length (localToGlobalVector l) ->
  length (prefixSumOfEdges (foldl place l plan))
  = length (localToGlobalVector (foldl place l plan)).
Proof.
  revert l. induction plan as [|[gid k] plan IH]; intros l Hl; [done|].
  cbn [foldl]. apply IH. cbn. rewrite !length_app.
  destruct (prepare_nodes k l) as (-> & _ & _ & _ & _ & ->). by rewrite Hl.
Qed.

Lemma place_indexed plan l :
  indexed l -> numNodes l = Z.of_nat (length (localToGlobalVector l)) ->
  Z.of_nat (length (localToGlobalVector l) + length plan) < 2 ^ 32 ->
  NoDup (localToGlobalVector l ++ plan.*1) ->
  indexed (foldl place l plan).
Proof.
  revert l. induction plan as [|[gid k] plan IH]; intros l Hi Hn Hfit Hnd;
    [done|].
  unfold indexed in Hi.
  cbn [foldl]. cbn [fmap list_fmap fst] in Hnd.
  destruct (prepare_nodes k l) as (Ev & Em & Ec & _).
  apply IH.
  - intros gid' k'. cbn. rewrite Ev, Em, Ec.
    apply NoDup_app in Hnd as (_ & Hdis & _).
    assert (Hfresh : gid ∉ localToGlobalVector l).
    { intros Hin. apply (Hdis gid Hin). by left. }
    destruct (decide (gid' = gid)) as [->|Hne].
    + rewrite lookup_insert. rewrite decide_True by done. split.
      * intros [= <-]. split; [lia|].
        rewrite Hn, Nat2Z.id. by rewrite lookup_app_r, Nat.sub_diag.
      * intros [Hk Hl]. f_equal.
        apply lookup_app_Some in Hl as [Hl|[Hge Hl]].
        -- exfalso. apply Hfresh. by apply list_elem_of_lookup_2 in Hl.
        -- apply list_lookup_singleton_Some in Hl as [Hz _]. lia.
    + rewrite lookup_insert_ne by done. rewrite (Hi gid' k'). split.
      * intros [Hk Hl]. split; [done|]. by apply lookup_app_l_Some.
      * intros [Hk Hl]. split; [done|].
        apply lookup_app_Some in Hl as [Hl|[Hge Hl]]; [done|].
        apply list_lookup_singleton_Some in Hl as [_ E]. congruence.
  - cbn. rewrite Ev, Ec, Hn, length_app. cbn [length].
    cbn [length] in Hfit. rewrite u32_small by lia. lia.
  - cbn. rewrite Ev, length_app. cbn [length]. cbn [length] in Hfit. lia.
  - cbn. rewrite Ev, <- app_assoc. done.
Qed.

(** ** The layout ends well *)

Lemma release_wf h : wfHost h -> wfHost (release h).
Proof. intros []. by constructor. Qed.













Lemma layout_release h ins :
  ndebug h = true -> exists l, layout h ins = Ok l.
Proof.
  intros Hnd. unfold layout.
  destruct (layoutMasters_release h ins (emptyLocal (ownedCount h)) Hnd)
    as [l1 ->]. cbn.
  destruct (layoutOutgoing_release h ins l1 Hnd) as [l2 ->]. cbn.
  apply layoutIncoming_release. done.
Qed.

Lemma layoutPlan_vector h ins l :
  layout h ins = Ok l -> localToGlobalVector l = (layoutPlan h ins).*1.
Proof.
  intros ->%layout_plan. rewrite place_vector. cbn.
  rewrite place_vector. cbn. unfold layoutPlan. by rewrite !fmap_app, app_assoc.
Qed.

Lemma columnIndexLoop_release h gid col bs acc :
  columnIndexLoop (release h) gid col bs acc = columnIndexLoop h gid col bs acc.
Proof.
  revert acc. induction bs as [|b bs IH]; intros acc; [done|].
  cbn [columnIndexLoop].
  change (getColumnHostIDOfBlock (release h) b) with (getColumnHostIDOfBlock h b).
  change (rangeOf (release h) b) with (rangeOf h b).
  destruct (getColumnHostIDOfBlock h b =? col); [|apply IH].
  destruct (rangeOf h b) as [start end_].
  destruct (gid <? end_); [done | apply IH].
Qed.

Lemma incomingBit_release h ins gid :
  incomingBit (release h) ins gid = incomingBit h ins gid.
Proof.
  unfold incomingBit, getColumnIndex. by rewrite columnIndexLoop_release.
Qed.

Lemma layoutPlan_release h ins : layoutPlan (release h) ins = layoutPlan h ins.
Proof.
  unfold layoutPlan.
  change (mastersPlan (release h) ins) with (mastersPlan h ins).
  f_equal. f_equal.
  - unfold outgoingPlan. apply flat_map_ext. intros d.
    apply flat_map_ext. intros i.
    change (virtual2RealHost (release h) (leaderOf (release h) d + i) =? id (release h))
      with (virtual2RealHost h (leaderOf h d + i) =? id h).
    destruct (virtual2RealHost h (leaderOf h d + i) =? id h); [done|].
    apply flat_map_ext. intros [src n]. unfold outgoingChoice, dummyOutgoingCase.
    by rewrite incomingBit_release.
  - unfold incomingPlan. apply flat_map_ext. intros i.
    change (virtual2RealHost (release h) (incomingPeer (release h) i) =? id (release h))
      with (virtual2RealHost h (incomingPeer h i) =? id h).
    destruct (virtual2RealHost h (incomingPeer h i) =? id h); [done|].
    change (columnBlocked (tp (release h)) && inOwnRows (release h) (incomingPeer (release h) i))
      with (columnBlocked (tp h) && inOwnRows h (incomingPeer h i)).
    destruct (columnBlocked (tp h) && inOwnRows h (incomingPeer h i)); [done|].
    apply flat_map_ext. intros dst. by rewrite incomingBit_release.
Qed.







(** ** The local index after the first pass *)

Lemma place_setNodesWithEdges n plan l :
  foldl place (setNodesWithEdges n l) plan
  = setNodesWithEdges n (foldl place l plan).
Proof.
  revert l. induction plan as [|[gid k] plan IH]; intros l; [done|].
  cbn [foldl]. rewrite <- IH. f_equal. by destruct k.
Qed.

(** The result of [loadStatistics], in closed form. *)
Lemma loadStatistics_plan h g l :
  wfHost h -> loadStatistics h g = Ok l ->
  exists ins,
    exchange h (metaInbox h g) (inspect h g) = Ok ins /\ degreesFit h ins /\
    l = setNodesWithEdges
          (numNodes (foldl place (emptyLocal (ownedCount h))
                           (mastersPlan h ins ++ outgoingPlan h ins)))
          (foldl place (emptyLocal (ownedCount h)) (layoutPlan h ins)).
Proof.
  intros Hwf. unfold loadStatistics.
  destruct (exchange h (metaInbox h g) (inspect h g)) as [ins|] eqn:Hex;
    [cbn|done].
  intros Hl. exists ins. split; [done|].
  pose proof (exchange_degreesFit h g ins Hwf Hex) as Hfit. split; [done|].
  apply layout_plan in Hl as ->.
  change (markNodesWithEdges ?a) with (setNodesWithEdges (numNodes a) a).
  rewrite place_setNodesWithEdges. unfold layoutPlan.
  rewrite (app_assoc (mastersPlan h ins)).
  by rewrite (foldl_app _ (mastersPlan h ins ++ outgoingPlan h ins)
                (incomingPlan h ins)).
Qed.

Lemma chained_le ranges : forall s n, chained s ranges n -> s <= n.
Proof.
  induction ranges as [|r ranges IH]; intros s n Hc; cbn in Hc; [lia|].
  destruct Hc as (E & Hle & Hc). apply IH in Hc. lia.
Qed.

Lemma nodes_nonneg h : wfHost h -> 0 <= numGlobalNodes h.
Proof. intros Hwf. apply (chained_le _ _ _ (wf_cover h Hwf)). Qed.

Lemma nodes_length h vs :
  wfHost h -> NoDup (nodesOf h vs) ->
  Z.of_nat (length (nodesOf h vs)) <= numGlobalNodes h.
Proof.
  intros Hwf Hnd.
  assert (Hin : forall x, x ∈ nodesOf h vs -> x ∈ seqZ 0 (numGlobalNodes h)).
  { intros x (v & Hv & Hx)%elem_of_flat_map.
    apply elem_of_seqZ. pose proof (sourcesOf_bounds h v x Hwf Hx). lia. }
  pose proof (submseteq_length _ _ (NoDup_submseteq _ _ Hnd Hin)) as Hlen.
  rewrite length_seqZ in Hlen. pose proof (nodes_nonneg h Hwf). lia.
Qed.

Lemma visited_nodes_NoDup h : wfHost h -> NoDup (nodesOf h (visited h)).
Proof.
  intros Hwf. apply nodesOf_NoDup; [done | by apply visited_NoDup |].
  intros v. by apply visited_nonneg.
Qed.

Lemma layoutPlan_length h ins :
  wfHost h -> degreesFit h ins ->
  Z.of_nat (length (layoutPlan h ins)) < 2 ^ 32.
Proof.
  intros Hwf Hfit.
  destruct (layout_release (release h) ins eq_refl) as [l Hl].
  destruct (layout_sublist (release h) ins l (release_wf h Hwf) Hfit Hl)
    as [Hsub _].
  rewrite (layoutPlan_vector _ _ _ Hl), layoutPlan_release in Hsub.
  apply sublist_length in Hsub. rewrite length_fmap in Hsub.
  pose proof (nodes_length (release h) (visited (release h))
                (release_wf h Hwf) (visited_nodes_NoDup _ (release_wf h Hwf))).
  pose proof (wf_nodes h Hwf). cbn in *. lia.
Qed.

Lemma emptyLocal_indexed k : indexed (emptyLocal k).
Proof.
  intros gid lid. cbn. rewrite lookup_empty, lookup_nil. split; [done|].
  by intros [_ ?].
Qed.

Lemma place_count_small plan k :
  Z.of_nat (length plan) < 2 ^ 32 ->
  numNodes (foldl place (emptyLocal k) plan) = Z.of_nat (length plan).
Proof.
  intros Hfit. destruct (place_count plan (emptyLocal k)) as [->|[-> ->]].
  - cbn. rewrite u32_small; lia.
  - done.
Qed.

(** The local index [loadStatistics] leaves. *)
Lemma loadStatistics_index h g l :
  wfHost h -> loadStatistics h g = Ok l ->
  indexed l /\ NoDup (localToGlobalVector l) /\
  numNodes l = Z.of_nat (length (localToGlobalVector l)).
Proof.
  intros Hwf Hl.
  destruct (loadStatistics_distinct h g l Hwf Hl) as [Hnd Hn].
  split; [|done].
  destruct (loadStatistics_plan h g l Hwf Hl) as (ins & _ & Hfit & ->).
  cbn in Hnd. rewrite place_vector in Hnd.
  intros gid k. cbn. apply place_indexed; cbn.
  - apply emptyLocal_indexed.
  - done.
  - by apply layoutPlan_length.
  - done.
Qed.

Lemma G2L_Ok h l gid lid :
  G2L h l gid = Ok lid <-> globalToLocalMap l !! gid = Some lid.
Proof.
  unfold G2L, isLocal, assertR. split.
  - destruct (ndebug h); cbn.
    + destruct (globalToLocalMap l !! gid); [by intros [= ->]|done].
    + destruct (isOwned h gid || _); cbn; [|done].
      destruct (globalToLocalMap l !! gid); [by intros [= ->]|done].
  - intros ->. rewrite bool_decide_eq_true_2 by by eexists.
    rewrite orb_true_r. by destruct (ndebug h).
Qed.

(** X12. After [loadStatistics], [G2L] and [L2G] are inverse to each
    other: every local id below [numNodes] maps to a global id that maps
    back to it, and every global id [G2L] accepts has a local id below
    [numNodes] that [L2G] maps back to it. *)
Theorem local_global_round_trip (h : Host) (g : Graph) (l : Local) :
  wfHost h -> loadStatistics h g = Ok l ->
  (forall lid, 0 <= lid < numNodes l -> G2L h l (L2G l lid) = Ok lid) /\
  (forall gid lid, G2L h l gid = Ok lid ->
                   0 <= lid < numNodes l /\ L2G l lid = gid).
Proof.
  intros Hwf Hl. destruct (loadStatistics_index h g l Hwf Hl) as (Hi & Hnd & Hn).
  split.
  - intros lid Hlid. apply G2L_Ok, Hi. split; [lia|].
    unfold L2G. rewrite at_lookup.
    destruct (lookup_lt_is_Some_2 (localToGlobalVector l) (Z.to_nat lid)
                ltac:(lia)) as [gid Hg].
    by rewrite Hg.
  - intros gid lid [Hk Hg]%G2L_Ok%Hi. split.
    + apply lookup_lt_Some in Hg. lia.
    + unfold L2G. by rewrite at_lookup, Hg.
Qed.

Lemma local_global_round_trip_witness :
  exists l,
    loadStatistics hostK3 completeK3 = Ok l /\
    (forall lid, 0 <= lid < numNodes l -> G2L hostK3 l (L2G l lid) = Ok lid) /\
    (forall gid lid, G2L hostK3 l gid = Ok lid ->
                     0 <= lid < numNodes l /\ L2G l lid = gid).
Proof.
  eexists. split; [vm_compute; reflexivity|].
  apply (local_global_round_trip hostK3 completeK3 _ hostK3_wf).
  vm_compute; reflexivity.
Defined.

Lemma offsets_fst first v :
  (map (fun x : Z * Z => (x.1, withEdges x.2)) (offsets first v)).*1
  = seqZ first (Z.of_nat (length v)).
Proof.
  rewrite <- offsets_sources. induction (offsets first v) as [|x xs IH];
    [done|]. cbn. by rewrite IH.
Qed.

Lemma fmap_flat_map {A B C : Type} (f : B -> C) (g : A -> list B) xs :
  f <$> flat_map g xs = flat_map (fun x => f <$> g x) xs.
Proof.
  induction xs as [|x xs IH]; [done|]. cbn. by rewrite fmap_app, IH.
Qed.

Lemma mastersPlan_nodes h ins :
  wfHost h -> degreesFit h ins -> (mastersPlan h ins).*1 = ownedNodes h.
Proof.
  intros Hwf Hfit. unfold mastersPlan, ownedNodes. rewrite fmap_flat_map.
  apply flat_map_ext_elem. intros d Hd. rewrite offsets_fst.
  pose proof (elem_of_decomposition h d) as [Hd' _].
  pose proof (id_split h Hwf) as (_ & Hcol & _).
  rewrite <- (leader_own h Hwf d).
  apply degreesFit_sources; [done..|]. by apply elem_of_columns.
Qed.

Lemma foldl_u32_sum (f : Z -> Z) ds acc :
  foldl (fun a d => u32 (a + f d)) (u32 acc) ds
  = u32 (acc + foldr (fun d s => f d + s) 0 ds).
Proof.
  revert acc. induction ds as [|d ds IH]; intros acc; cbn.
  - by rewrite Z.add_0_r.
  - rewrite u32_u32_add, IH. f_equal. lia.
Qed.

Lemma rangeSize_sources h v :
  wfHost h -> rangeSize h v = Z.of_nat (length (sourcesOf h v)).
Proof.
  intros Hwf. rewrite <- (rangeSize_length h v Hwf), Z2Nat.id; [done|].
  unfold rangeSize, u64. apply Z.mod_pos_bound. lia.
Qed.

Lemma ownedNodes_eq h : ownedNodes h = nodesOf h (mastersVisited h).
Proof.
  unfold ownedNodes, nodesOf, mastersVisited.
  induction (decomposition h) as [|d ds IH]; [done|]. cbn. by rewrite IH.
Qed.

Lemma ownedNodes_NoDup h : wfHost h -> NoDup (ownedNodes h).
Proof.
  intros Hwf. rewrite ownedNodes_eq. apply nodesOf_NoDup; [done| |].
  - apply (mastersVisited_NoDup h Hwf).
  - intros v Hv. apply (visited_nonneg h Hwf). apply elem_of_app. by left.
Qed.

Lemma ownedCount_length h :
  wfHost h -> ownedCount h = Z.of_nat (length (ownedNodes h)).
Proof.
  intros Hwf. unfold ownedCount.
  change 0 with (u32 0) at 1.
  rewrite (foldl_u32_sum (fun d => rangeSize h (ownVirtual h d))).
  assert (E : foldr (fun d s => rangeSize h (ownVirtual h d) + s) 0
                    (decomposition h)
              = Z.of_nat (length (ownedNodes h))).
  { unfold ownedNodes. induction (decomposition h) as [|d ds IH]; [done|].
    cbn. rewrite IH, length_app, (rangeSize_sources h _ Hwf). lia. }
  rewrite E. apply u32_small.
  pose proof (nodes_length h (mastersVisited h) Hwf) as Hlen.
  rewrite <- ownedNodes_eq in Hlen. specialize (Hlen (ownedNodes_NoDup h Hwf)).
  pose proof (wf_nodes h Hwf). lia.
Qed.

Lemma isOwned_nodes h gid : isOwned h gid = true <-> gid ∈ ownedNodes h.
Proof.
  unfold isOwned, ownedNodes. rewrite existsb_exists, elem_of_flat_map.
  split; intros (d & Hd & Hr); exists d.
  - split; [by apply list_elem_of_In|]. by apply inRange_sourcesOf.
  - split; [by apply list_elem_of_In|]. by apply inRange_sourcesOf.
Qed.

(** The vector starts with the owned nodes. *)
Lemma loadStatistics_masters h g l :
  wfHost h -> loadStatistics h g = Ok l ->
  numOwned l = Z.of_nat (length (ownedNodes h)) /\
  exists rest, localToGlobalVector l = ownedNodes h ++ rest.
Proof.
  intros Hwf Hl.
  destruct (loadStatistics_plan h g l Hwf Hl) as (ins & _ & Hfit & ->).
  cbn. destruct (place_fixed (layoutPlan h ins) (emptyLocal (ownedCount h)))
    as [-> _]. cbn. split; [by apply ownedCount_length|].
  rewrite place_vector. cbn. unfold layoutPlan. rewrite fmap_app.
  rewrite (mastersPlan_nodes h ins Hwf Hfit). by eexists.
Qed.

(** X13. After [loadStatistics], the masters occupy the local ids below
    [numOwned]: every owned node has a local id in [0, numOwned), and every
    local node with such an id is owned. *)
Theorem masters_come_first (h : Host) (g : Graph) (l : Local) :
  wfHost h -> loadStatistics h g = Ok l ->
  (forall gid, isOwned h gid = true ->
     exists lid, G2L h l gid = Ok lid /\ 0 <= lid < numOwned l) /\
  (forall gid lid, G2L h l gid = Ok lid -> lid < numOwned l ->
     isOwned h gid = true).
Proof.
  intros Hwf Hl.
  destruct (loadStatistics_index h g l Hwf Hl) as (Hi & Hnd & Hn).
  destruct (loadStatistics_masters h g l Hwf Hl) as (Ho & rest & Hv).
  split.
  - intros gid (k & Hk)%isOwned_nodes%list_elem_of_lookup_1.
    exists (Z.of_nat k). pose proof (lookup_lt_Some _ _ _ Hk). split; [|lia].
    apply G2L_Ok, Hi. split; [lia|]. rewrite Nat2Z.id, Hv.
    by apply lookup_app_l_Some.
  - intros gid lid [Hk Hg]%G2L_Ok%Hi Hlt. apply isOwned_nodes.
    rewrite Hv, lookup_app_l in Hg by lia.
    by apply list_elem_of_lookup_2 in Hg.
Qed.

Lemma masters_come_first_witness :
  exists l,
    loadStatistics hostK3 completeK3 = Ok l /\
    (forall gid, isOwned hostK3 gid = true ->
       exists lid, G2L hostK3 l gid = Ok lid /\ 0 <= lid < numOwned l) /\
    (forall gid lid, G2L hostK3 l gid = Ok lid -> lid < numOwned l ->
       isOwned hostK3 gid = true).
Proof.
  eexists. split; [vm_compute; reflexivity|].
  apply (masters_come_first hostK3 completeK3 _ hostK3_wf).
  vm_compute; reflexivity.
Defined.





(** X15. After [loadStatistics],
    [numOwned <= numNodesWithEdges <= numNodes], and the prefix-sum vector
    has one entry per local node, which is what the constructor asserts
    next. *)
Theorem node_counts_ordered (h : Host) (g : Graph) (l : Local) :
  wfHost h -> loadStatistics h g = Ok l ->
  0 <= numOwned l <= numNodesWithEdges l /\
  numNodesWithEdges l <= numNodes l /\
  Z.of_nat (length (prefixSumOfEdges l)) = numNodes l.
Proof.
  intros Hwf Hl.
  destruct (loadStatistics_masters h g l Hwf Hl) as (Ho & _).
  destruct (loadStatistics_plan h g l Hwf Hl) as (ins & _ & Hfit & ->).
  cbn in *. pose proof (layoutPlan_length h ins Hwf Hfit) as Hlen.
  unfold layoutPlan in *. rewrite !length_app in Hlen.
  rewrite !place_count_small by (rewrite ?length_app; lia).
  rewrite place_prefix_length by done. rewrite place_vector. cbn.
  rewrite length_fmap, !length_app.
  assert (Hm : length (mastersPlan h ins) = length (ownedNodes h)).
  { by rewrite <- (mastersPlan_nodes h ins Hwf Hfit), length_fmap. }
  lia.
Qed.

Lemma node_counts_ordered_witness :
  exists l,
    loadStatistics hostK3 completeK3 = Ok l /\
    0 <= numOwned l <= numNodesWithEdges l /\
    numNodesWithEdges l <= numNodes l /\
    Z.of_nat (length (prefixSumOfEdges l)) = numNodes l.
Proof.
  eexists. split; [vm_compute; reflexivity|].
  apply (node_counts_ordered hostK3 completeK3 _ hostK3_wf).
  vm_compute; reflexivity.
Defined.

(** ** Column index and bitset size *)

Lemma indexOf_bound x l k : indexOf x l = Some k -> 0 <= k < Z.of_nat (length l).
Proof.
  revert k. induction l as [|y l IH]; intros k; cbn [indexOf]; [done|].
  destruct (x =? y).
  - intros [= <-]. cbn [length]. lia.
  - destruct (indexOf x l) as [k'|]; [|done]. cbn. intros [= <-].
    specialize (IH k' eq_refl). cbn [length]. lia.
Qed.

Lemma columnPrefix_bound h col n :
  wfHost h -> 0 <= n ->
  Z.of_nat (length (columnPrefix h col n)) <= numGlobalNodes h.
Proof.
  intros Hwf Hn.
  assert (Hin : forall x, x ∈ columnPrefix h col n ->
                          x ∈ seqZ 0 (numGlobalNodes h)).
  { intros x (b & _ & Hx)%columnPrefix_elem; [|done].
    apply elem_of_seqZ. pose proof (sourcesOf_bounds h b x Hwf Hx). lia. }
  pose proof (submseteq_length _ _
    (NoDup_submseteq _ _ (columnPrefix_NoDup h Hwf col n Hn) Hin)) as Hlen.
  rewrite length_seqZ in Hlen. pose proof (nodes_nonneg h Hwf). lia.
Qed.

Lemma columnBlockSize_members h col :
  wfHost h -> DecomposeFactor (tp h) = 1 ->
  columnBlockSize h col = Z.of_nat (length (columnMembers h col)).
Proof.
  intros Hwf HD. unfold columnBlockSize, columnMembers.
  pose proof (flat_virtual h Hwf HD) as Hnv. pose proof (wf_nodes h Hwf) as HN.
  assert (Hgen : forall k : nat, Z.of_nat k <= numVirtualHosts h ->
            foldl (fun acc b =>
                     if getColumnHostIDOfBlock h b =? col
                     then u64 (acc + rangeSize h b) else acc) 0
                  (seqZ 0 (Z.of_nat k))
            = Z.of_nat (length (columnPrefix h col (Z.of_nat k)))).
  { induction k as [|k IH]; intros Hk; [done|].
    rewrite Nat2Z.inj_succ, <- Z.add_1_r.
    rewrite (seqZ_app 0 (Z.of_nat k) 1), foldl_app by lia.
    rewrite IH by lia. rewrite Z.add_0_l, seqZ_one. cbn [foldl].
    pose proof (columnPrefix_bound h col (Z.of_nat k + 1) Hwf ltac:(lia)) as Hb.
    rewrite (columnPrefix_succ h col (Z.of_nat k)) in Hb |- * by lia.
    destruct (getColumnHostIDOfBlock h (Z.of_nat k) =? col).
    - rewrite length_app in Hb |- *. rewrite (rangeSize_sources h _ Hwf).
      rewrite u64_small by lia. lia.
    - by rewrite app_nil_r. }
  pose proof (wf_id h Hwf).
  rewrite <- (Z2Nat.id (numVirtualHosts h)) by lia. apply Hgen. lia.
Qed.

(** X4. With decompose factor 1, the column index of a node is its offset
    in the concatenation of the ranges of its column, and it is smaller than
    the size [loadStatistics] gives the bitset of that column. *)
Theorem column_index_without_decomposition (h : Host) (gid : Z) :
  wfHost h -> DecomposeFactor (tp h) = 1 -> 0 <= gid < numGlobalNodes h ->
  columnOffset h gid = Some (getColumnIndex h gid) /\
  0 <= getColumnIndex h gid < columnBlockSize h (getColumnHostID h gid).
Proof.
  intros Hwf HD Hg.
  pose proof (getColumnIndex_offset h Hwf HD gid Hg) as Hoff.
  split; [done|]. rewrite (columnBlockSize_members h _ Hwf HD).
  unfold columnOffset in Hoff. by apply indexOf_bound in Hoff.
Qed.

Lemma column_index_without_decomposition_witness :
  columnOffset hostK3 2 = Some (getColumnIndex hostK3 2) /\
  0 <= getColumnIndex hostK3 2
    < columnBlockSize hostK3 (getColumnHostID hostK3 2).
Proof.
  apply (column_index_without_decomposition hostK3 2 hostK3_wf);
    [reflexivity | cbn; lia].
Defined.

(** ** The first pass stays inside its bitsets *)



Lemma columnBlockSize_onHost h p c :
  columnBlockSize (onHost h p) c = columnBlockSize h c.
Proof. reflexivity. Qed.

Section Bits.
Context (h : Host) (Hwf : wfHost h).







End Bits.



Section Flat.
Context (h : Host) (Hwf : wfHost h) (HD : DecomposeFactor (tp h) = 1).





End Flat.




(** ** The dummy-outgoing case at the inputs of a build *)


